(** * Snake: a sine-based periodic activation (snake/activations.py)

    A shallow embedding of the [Snake] module of [snake/activations.py]
    and of the small fragment of the tensor engine it calls
    ([torch.ones], [Parameter], [Exponential.sample], the broadcasting
    elementwise operators, [sin] and [pow]).

    The tensors of the module hold binary32 numbers, the default element
    type of the engine.  A scalar is a real number, an infinity or NaN;
    every operation on finite values computes the exact real result and
    rounds it to the nearest binary32 number, ties to even, an infinity
    when the rounded magnitude reaches [2^128].  Nothing raises: [1/0] is
    an infinity and [inf * 0] is NaN.  The two zeros of IEEE 754 are
    one, and the sine of the library is taken as correctly rounded. *)

From Stdlib Require Import String.
From Stdlib Require Import Reals Lra Lia ZArith Bool Arith List.
Import ListNotations.

Set Implicit Arguments.

(** ** Scalars *)

Module Scalar.

Local Open Scope R_scope.

(** *** Rounding to binary32

    A number of the format is an integer multiple of [2^e], [e] the
    exponent of its binade: 24 bits of precision, smallest exponent
    [-149]. *)

Definition bpow (e : Z) : R := powerRZ 2 e.

(** [mag r] is the integer [m] with [2^(m-1) <= |r| < 2^m]. *)
Definition mag (r : R) : Z := up (ln (Rabs r) / ln 2).

Definition fexp (r : R) : Z := Z.max (mag r - 24) (-149).

(** The nearest integer, the even one on a tie. *)
Definition rne (t : R) : Z :=
  let f := Int_part t in
  if Rlt_dec (t - IZR f) (1 / 2) then f
  else if Rlt_dec (1 / 2) (t - IZR f) then (f + 1)%Z
  else if Z.even f then f else (f + 1)%Z.

Definition rnd (r : R) : R := IZR (rne (r / bpow (fexp r))) * bpow (fexp r).

Definition format (v : R) : Prop := exists k : Z, v = IZR k * bpow (fexp v).

Inductive fp : Type :=
| Fin (r : R)
| Inf (neg : bool)
| NaN.

Definition Rneg (x : R) : bool := if Rlt_dec x 0 then true else false.

Definition round32 (r : R) : fp :=
  if Rle_dec (bpow 128) (Rabs (rnd r)) then Inf (Rneg r) else Fin (rnd r).

(** The finite values a tensor can hold. *)
Definition binary32 (r : R) : Prop := round32 r = Fin r.

(** *** Arithmetic *)

Definition fadd (a b : fp) : fp :=
  match a, b with
  | NaN, _ | _, NaN => NaN
  | Fin x, Fin y => round32 (x + y)
  | Fin _, Inf s | Inf s, Fin _ => Inf s
  | Inf s, Inf t => if Bool.eqb s t then Inf s else NaN
  end.

(** A product by one is the other operand: so it is in IEEE 754, where
    rounding [x * y] gives the same on binary32 numbers. *)
Definition fmul (a b : fp) : fp :=
  match a, b with
  | NaN, _ | _, NaN => NaN
  | Fin x, Fin y =>
      if Req_dec_T x 1 then Fin y
      else if Req_dec_T y 1 then Fin x
      else round32 (x * y)
  | Fin x, Inf s | Inf s, Fin x =>
      if Req_dec_T x 0 then NaN else Inf (xorb s (Rneg x))
  | Inf s, Inf t => Inf (xorb s t)
  end.

Definition fdiv (a b : fp) : fp :=
  match a, b with
  | NaN, _ | _, NaN => NaN
  | Fin x, Fin y =>
      if Req_dec_T y 0
      then (if Req_dec_T x 0 then NaN else Inf (Rneg x))
      else round32 (x / y)
  | Fin _, Inf _ => Fin 0
  | Inf s, Fin y => Inf (xorb s (Rneg y))
  | Inf _, Inf _ => NaN
  end.

(** The sine of the library is accurate to the last place; it is taken
    here as the sine rounded to nearest.  The sine of an infinity is NaN. *)
Definition fsin (a : fp) : fp :=
  match a with
  | Fin x => round32 (sin x)
  | _ => NaN
  end.

(** [pow] with a non-negative integer exponent, the only use in the
    source: the power rounded to nearest (for the exponent 2 the engine
    multiplies the value by itself). *)
Definition fpow (a : fp) (n : nat) : fp :=
  match n with
  | O => Fin 1
  | _ =>
      match a with
      | Fin x => round32 (x ^ n)
      | Inf s => Inf (s && Nat.odd n)
      | NaN => NaN
      end
  end.

End Scalar.
Import Scalar.

(** ** Exceptions *)

Inductive exn : Type :=
| TypeError
| RuntimeError.

Inductive result (A : Type) : Type :=
| Ok (a : A)
| Raise (e : exn).
Arguments Raise {A} e.

Definition bind {A B : Type} (m : result A) (k : A -> result B) : result B :=
  match m with
  | Ok a => k a
  | Raise e => Raise e
  end.

Notation "x <- m ;; k" := (bind m (fun x => k))
  (at level 61, m at next level, right associativity).

(** ** Tensors: a shape and the elements in row-major order *)

Module Torch.

Record tensor : Type := mkTensor { shape : list nat; data : list fp }.

Definition numel (s : list nat) : nat := fold_right Nat.mul 1%nat s.

Definition wf (t : tensor) : Prop := length (data t) = numel (shape t).

(** A size argument as Python passes it: an int or a sequence of ints. *)
Inductive pysize : Type :=
| PyInt (n : Z)
| PySeq (dims : list Z).

Definition size_of (a : pysize) : list Z :=
  match a with
  | PyInt n => [n]
  | PySeq ds => ds
  end.

(** The engine refuses a negative dimension. *)
Definition check_dims (ds : list Z) : result (list nat) :=
  if forallb (fun d => 0 <=? d)%Z ds
  then Ok (map Z.to_nat ds)
  else Raise RuntimeError.

(** [torch.ones(size)] *)
Definition ones (size : pysize) : result tensor :=
  s <- check_dims (size_of size) ;;
  Ok (mkTensor s (repeat (Fin 1) (numel s))).

(** Unary elementwise operations. *)
Definition tmap (f : fp -> fp) (t : tensor) : tensor :=
  mkTensor (shape t) (map f (data t)).

Definition sin (t : tensor) : tensor := tmap fsin t.
Definition pow (t : tensor) (n : nat) : tensor := tmap (fun v => fpow v n) t.
(** [t * c] and [c / t] for a Python number [c]. *)
Definition mul_scalar (t : tensor) (c : fp) : tensor := tmap (fun v => fmul v c) t.
Definition rdiv_scalar (c : fp) (t : tensor) : tensor := tmap (fun v => fdiv c v) t.

(** *** Broadcasting

    Shapes are aligned on their trailing dimensions; a missing leading
    dimension counts as 1; two dimensions are compatible when they are
    equal or one of them is 1. *)

Definition pad (k : nat) (s : list nat) : list nat :=
  repeat 1%nat (k - length s) ++ s.

Definition bdim (d e : nat) : option nat :=
  if Nat.eqb d e then Some d
  else if Nat.eqb d 1 then Some e
  else if Nat.eqb e 1 then Some d
  else None.

Fixpoint bdims (s1 s2 : list nat) : option (list nat) :=
  match s1, s2 with
  | [], [] => Some []
  | d :: r1, e :: r2 =>
      match bdim d e, bdims r1 r2 with
      | Some n, Some r => Some (n :: r)
      | _, _ => None
      end
  | _, _ => None
  end.

Definition broadcast_shapes (s1 s2 : list nat) : option (list nat) :=
  let k := Nat.max (length s1) (length s2) in
  bdims (pad k s1) (pad k s2).

Fixpoint chunks (A : Type) (n size : nat) (l : list A) : list (list A) :=
  match n with
  | O => []
  | S n' => firstn size l :: chunks n' size (skipn size l)
  end.

(** [expand from to l]: the elements of a tensor of shape [from] seen at
    shape [to] (same rank; each dimension equal, or 1 and repeated). *)
Fixpoint expand (A : Type) (from to : list nat) (l : list A) : list A :=
  match from, to with
  | d :: ds, e :: es =>
      let rows := map (expand ds es) (chunks d (numel ds) l) in
      if Nat.eqb d e then concat rows else concat (repeat (concat rows) e)
  | _, _ => l
  end.

Fixpoint map2 (A B C : Type) (f : A -> B -> C) (l1 : list A) (l2 : list B) : list C :=
  match l1, l2 with
  | a :: r1, b :: r2 => f a b :: map2 f r1 r2
  | _, _ => []
  end.

Definition binop (f : fp -> fp -> fp) (t1 t2 : tensor) : result tensor :=
  match broadcast_shapes (shape t1) (shape t2) with
  | None => Raise RuntimeError
  | Some s =>
      let k := length s in
      Ok (mkTensor s (map2 f (expand (pad k (shape t1)) s (data t1))
                             (expand (pad k (shape t2)) s (data t2))))
  end.

Definition add : tensor -> tensor -> result tensor := binop fadd.
Definition mul : tensor -> tensor -> result tensor := binop fmul.

(** [from] expands to [to]: same rank, each dimension equal or 1. *)
Definition expandable (from to : list nat) : Prop :=
  Forall2 (fun d e => d = e \/ d = 1%nat) from to.

(** *** Parameters

    A [torch.nn.Parameter] wraps a tensor and is created requiring gradient; like
    any Python object it also accepts attributes of any other name, kept
    in its dictionary. *)

Record nn_Parameter : Type := mkParameter {
  value : tensor;
  requires_grad : bool;
  dict : list (string * bool)
}.

Definition new_Parameter (t : tensor) : nn_Parameter := mkParameter t true [].

Definition setattr (p : nn_Parameter) (name : string) (v : bool) : nn_Parameter :=
  if String.eqb name "requires_grad"%string
  then mkParameter (value p) v (dict p)
  else mkParameter (value p) (requires_grad p)
         ((name, v) :: filter (fun kv => negb (String.eqb (fst kv) name)) (dict p)).

Definition getattr (p : nn_Parameter) (name : string) : option bool :=
  if String.eqb name "requires_grad"%string
  then Some (requires_grad p)
  else option_map snd (find (fun kv => String.eqb (fst kv) name) (dict p)).

(** *** [Exponential(rate).sample(sample_shape)]

    The sample shape must be a sequence (an int is not iterable); the
    result has the sample shape followed by the shape of [rate].  The
    draws come from the entropy source [rng]. *)

Definition Exponential_sample (rng : nat -> fp) (rate : tensor) (sample_shape : pysize)
  : result tensor :=
  match sample_shape with
  | PyInt _ => Raise TypeError
  | PySeq ds =>
      s <- check_dims ds ;;
      let s' := s ++ shape rate in
      Ok (mkTensor s' (map rng (seq 0 (numel s'))))
  end.

End Torch.
Import Torch.

(** ** The module [Snake] *)

Module Snake.

Record Snake : Type := mkSnake {
  in_features : pysize;
  alpha : nn_Parameter
}.

(** [Snake.__init__(in_features, alpha = None, alpha_trainable = True)];
    [rng] is the entropy source of the sampler, and [alpha] the number
    given, in the element type of the tensors. *)
Definition init (rng : nat -> fp) (in_features : pysize) (alpha : option fp)
    (alpha_trainable : bool) : result Snake :=
  a <- match alpha with
       | Some c =>
           o <- ones in_features ;;
           Ok (new_Parameter (mul_scalar o c))
       | None =>
           let m := Exponential_sample rng (mkTensor [1%nat] [Fin (1 / 10)]) in
           s <- m in_features ;;
           Ok (new_Parameter s)
       end ;;
  Ok (mkSnake in_features (setattr a "requiresGrad"%string alpha_trainable)).

(** Methods run on the instance: a computation reads and returns [self]. *)
Definition M (A : Type) : Type := Snake -> result A * Snake.

Definition ret {A : Type} (r : result A) : M A := fun self => (r, self).

Definition bindM {A B : Type} (m : M A) (k : A -> M B) : M B :=
  fun self =>
    match m self with
    | (Ok a, self') => k a self'
    | (Raise e, self') => (Raise e, self')
    end.

Notation "x <~ m ;; k" := (bindM m (fun x => k))
  (at level 61, m at next level, right associativity).

(** [self.alpha] *)
Definition self_alpha : M tensor := fun self => (Ok (value (alpha self)), self).

(** [Snake.forward(x)]:
    [x + (1.0/self.alpha) * pow(sin(x * self.alpha), 2)] *)
Definition forward (x : tensor) : M tensor :=
  a1 <~ self_alpha ;;
  let r := rdiv_scalar (Fin 1) a1 in
  a2 <~ self_alpha ;;
  xa <~ ret (mul x a2) ;;
  let p := pow (sin xa) 2 in
  t <~ ret (mul r p) ;;
  ret (add x t).

(** What one element of the output is computed from. *)
Definition snake_elem (xv av : fp) : fp :=
  fadd xv (fmul (fdiv (Fin 1) av) (fpow (fsin (fmul xv av)) 2)).

(** A parameter vector as the constructor makes it from an int. *)
Definition vector (n : nat) (p : nn_Parameter) : Prop :=
  shape (value p) = [n] /\ length (data (value p)) = n.

End Snake.
Import Snake.

(** * Properties *)

(** ** Lists cut in rows *)

Section Chunks.
Variable A : Type.

Lemma chunks_length (n size : nat) (l : list A) :
  length (chunks n size l) = n.
Proof.
  revert l; induction n as [|n IH]; intros l; simpl; [reflexivity|].
  now rewrite IH.
Qed.

Lemma concat_chunks (n size : nat) (l : list A) :
  length l = (n * size)%nat -> concat (chunks n size l) = l.
Proof.
  revert l; induction n as [|n IH]; intros l Hl; simpl in *.
  - now destruct l.
  - rewrite IH.
    + apply firstn_skipn.
    + rewrite length_skipn. lia.
Qed.

Lemma chunks_row_length (n size : nat) (l : list A) :
  length l = (n * size)%nat ->
  Forall (fun c => length c = size) (chunks n size l).
Proof.
  revert l; induction n as [|n IH]; intros l Hl; simpl in *; constructor.
  - rewrite length_firstn. lia.
  - apply IH. rewrite length_skipn. lia.
Qed.

Lemma chunks_one (size : nat) (l : list A) :
  length l = size -> chunks 1 size l = [l].
Proof.
  intros Hl; simpl. rewrite firstn_all2 by lia. reflexivity.
Qed.

Lemma concat_repeat_length (l : list A) (k : nat) :
  length (concat (repeat l k)) = (k * length l)%nat.
Proof.
  induction k as [|k IH]; simpl; [reflexivity|].
  rewrite length_app, IH. reflexivity.
Qed.

Lemma in_concat_repeat (v : A) (l : list A) (k : nat) :
  In v l -> k <> 0%nat -> In v (concat (repeat l k)).
Proof.
  intros Hv Hk. destruct k as [|k]; [contradiction|].
  simpl. apply in_or_app. now left.
Qed.

End Chunks.

Lemma chunks_map (A B : Type) (f : A -> B) (n size : nat) (l : list A) :
  chunks n size (map f l) = map (map f) (chunks n size l).
Proof.
  revert l; induction n as [|n IH]; intros l; simpl; [reflexivity|].
  now rewrite firstn_map, skipn_map, IH.
Qed.

Lemma concat_repeat_map (A B : Type) (f : A -> B) (l : list A) (k : nat) :
  concat (repeat (map f l) k) = map f (concat (repeat l k)).
Proof.
  induction k as [|k IH]; simpl; [reflexivity|].
  now rewrite map_app, IH.
Qed.

(** ** Expansion *)

Lemma expand_id (A : Type) (s : list nat) (l : list A) :
  length l = numel s -> expand s s l = l.
Proof.
  revert l; induction s as [|d ds IH]; intros l Hl; simpl in *; [reflexivity|].
  rewrite Nat.eqb_refl.
  rewrite <- (concat_chunks d (numel ds) l) at 2 by exact Hl.
  f_equal.
  rewrite <- (map_id (chunks d (numel ds) l)) at 2.
  apply map_ext_in. intros c Hc.
  apply IH.
  pose proof (chunks_row_length d (numel ds) l Hl) as Hrows.
  rewrite Forall_forall in Hrows. now apply Hrows.
Qed.

Lemma expand_rows_length (A : Type) (f : list A -> list A) (k : nat) (rows : list (list A)) :
  (forall c, In c rows -> length (f c) = k) ->
  length (concat (map f rows)) = (length rows * k)%nat.
Proof.
  induction rows as [|c rows IH]; intros H; simpl; [reflexivity|].
  rewrite length_app, H by (now left).
  rewrite IH; [reflexivity|]. intros c' Hc'. apply H. now right.
Qed.

Lemma expand_length (A : Type) (from to : list nat) (l : list A) :
  expandable from to -> length l = numel from ->
  length (expand from to l) = numel to.
Proof.
  intros Hc; revert l; induction Hc as [|d e ds es Hde Hc IH]; intros l Hl;
    simpl in *; [exact Hl|].
  assert (Hrows : length (concat (map (expand ds es) (chunks d (numel ds) l)))
                  = (d * numel es)%nat).
  { rewrite (expand_rows_length (expand ds es) (k := numel es)).
    - now rewrite chunks_length.
    - intros c Hin. apply IH.
      pose proof (chunks_row_length d (numel ds) l Hl) as Hr.
      rewrite Forall_forall in Hr. now apply Hr. }
  destruct (Nat.eqb_spec d e) as [->|Hne].
  - exact Hrows.
  - destruct Hde as [-> | ->]; [contradiction|].
    rewrite concat_repeat_length, Hrows. lia.
Qed.

Lemma expand_map (A B : Type) (f : A -> B) (from to : list nat) (l : list A) :
  expand from to (map f l) = map f (expand from to l).
Proof.
  revert to l; induction from as [|d ds IH]; intros to l; simpl; [reflexivity|].
  destruct to as [|e es]; [reflexivity|].
  assert (Hrows : concat (map (expand ds es) (chunks d (numel ds) (map f l)))
                  = map f (concat (map (expand ds es) (chunks d (numel ds) l)))).
  { rewrite chunks_map, concat_map, !map_map. f_equal.
    apply map_ext. intros c. apply IH. }
  rewrite Hrows. destruct (Nat.eqb d e); [reflexivity|].
  apply concat_repeat_map.
Qed.

Lemma in_chunks (A : Type) (v : A) (n size : nat) (l : list A) :
  length l = (n * size)%nat -> In v l ->
  exists c, In c (chunks n size l) /\ length c = size /\ In v c.
Proof.
  intros Hl Hv.
  rewrite <- (concat_chunks n size l Hl) in Hv.
  apply in_concat in Hv. destruct Hv as [c [Hc Hvc]].
  exists c. repeat split; trivial.
  pose proof (chunks_row_length n size l Hl) as Hr.
  rewrite Forall_forall in Hr. now apply Hr.
Qed.

(** Every element of the source is seen in a non-empty expansion. *)
Lemma expand_In (A : Type) (v : A) (from to : list nat) (l : list A) :
  expandable from to -> length l = numel from -> numel to <> 0%nat ->
  In v l -> In v (expand from to l).
Proof.
  intros Hc; revert l; induction Hc as [|d e ds es Hde Hc IH]; intros l Hl Hto Hv;
    simpl in *; [exact Hv|].
  assert (Hrows : In v (concat (map (expand ds es) (chunks d (numel ds) l)))).
  { destruct (in_chunks v d (numel ds) l Hl Hv) as [c [Hc1 [Hc2 Hc3]]].
    apply in_concat. exists (expand ds es c). split.
    - now apply in_map.
    - apply IH; trivial. intros H0. apply Hto. rewrite H0. lia. }
  destruct (Nat.eqb d e); [exact Hrows|].
  apply in_concat_repeat; [exact Hrows|].
  intros ->. now apply Hto.
Qed.

(** ** Broadcast shapes *)

Lemma bdim_some (d e n : nat) :
  bdim d e = Some n ->
  (d = n \/ d = 1%nat) /\ (e = n \/ e = 1%nat) /\ bdim e n = Some n /\ bdim d n = Some n.
Proof.
  unfold bdim.
  destruct (Nat.eqb_spec d e) as [->|Hde].
  - intros H; inversion H; subst. rewrite Nat.eqb_refl. auto.
  - destruct (Nat.eqb_spec d 1) as [->|Hd1].
    + intros H; inversion H; subst. rewrite Nat.eqb_refl.
      destruct (Nat.eqb_spec 1 n); [congruence|]. auto.
    + destruct (Nat.eqb_spec e 1) as [->|He1]; [|discriminate].
      intros H; inversion H; subst. rewrite Nat.eqb_refl.
      destruct (Nat.eqb_spec 1 n); [congruence|]. auto.
Qed.

Lemma bdims_some (s1 s2 s : list nat) :
  bdims s1 s2 = Some s ->
  expandable s1 s /\ expandable s2 s /\ bdims s2 s = Some s /\ bdims s1 s = Some s.
Proof.
  revert s2 s; induction s1 as [|d r1 IH]; intros [|e r2] s H; simpl in H;
    try discriminate.
  - injection H as <-. repeat split; constructor.
  - destruct (bdim d e) as [n|] eqn:Hd; [|discriminate].
    destruct (bdims r1 r2) as [r|] eqn:Hr; [|discriminate].
    injection H as <-.
    destruct (bdim_some _ _ Hd) as [H1 [H2 [H3 H4]]].
    destruct (IH _ _ Hr) as [I1 [I2 [I3 I4]]].
    simpl. rewrite H3, H4, I3, I4.
    repeat split; constructor; trivial.
Qed.

Lemma expandable_length (s1 s2 : list nat) :
  expandable s1 s2 -> length s1 = length s2.
Proof. apply Forall2_length. Qed.

Lemma pad_length (k : nat) (s : list nat) :
  length (pad k s) = Nat.max k (length s).
Proof. unfold pad. rewrite length_app, repeat_length. lia. Qed.

Lemma pad_full (k : nat) (s : list nat) : (k <= length s)%nat -> pad k s = s.
Proof.
  intros H. unfold pad. replace (k - length s)%nat with 0%nat by lia. reflexivity.
Qed.

Lemma numel_pad (k : nat) (s : list nat) : numel (pad k s) = numel s.
Proof.
  unfold pad. induction (k - length s)%nat as [|j IH]; simpl; [reflexivity|].
  rewrite IH. lia.
Qed.

Lemma broadcast_shapes_some (s1 s2 s : list nat) :
  broadcast_shapes s1 s2 = Some s ->
  length s = Nat.max (length s1) (length s2) /\
  expandable (pad (length s) s1) s /\ expandable (pad (length s) s2) s /\
  broadcast_shapes s2 s = Some s /\ broadcast_shapes s1 s = Some s.
Proof.
  unfold broadcast_shapes. intros H.
  destruct (bdims_some _ _ H) as [E1 [E2 [B2 B1]]].
  assert (Hlen : length s = Nat.max (length s1) (length s2)).
  { rewrite <- (expandable_length E1), pad_length. lia. }
  rewrite Hlen.
  replace (Nat.max (length s2) (Nat.max (length s1) (length s2)))
    with (Nat.max (length s1) (length s2)) by lia.
  replace (Nat.max (length s1) (Nat.max (length s1) (length s2)))
    with (Nat.max (length s1) (length s2)) by lia.
  rewrite (pad_full (k := Nat.max (length s1) (length s2)) s) by lia.
  repeat split; trivial.
Qed.

(** ** The forward pass as one elementwise map *)

Lemma map2_length (A B C : Type) (f : A -> B -> C) (l1 : list A) (l2 : list B) :
  length (map2 f l1 l2) = Nat.min (length l1) (length l2).
Proof.
  revert l2; induction l1 as [|a l1 IH]; intros [|b l2]; simpl; trivial.
  now rewrite IH.
Qed.

Lemma map2_snake (X A : list fp) :
  map2 fadd X
    (map2 fmul (map (fun v => fdiv (Fin 1) v) A)
       (map (fun v => fpow v 2) (map fsin (map2 fmul X A))))
  = map2 snake_elem X A.
Proof.
  revert A; induction X as [|x X IH]; intros [|a A]; simpl; trivial.
  now rewrite IH.
Qed.

Lemma map2_In_right (A B C : Type) (f : A -> B -> C) (b : B) (c : C) (l1 : list A) (l2 : list B) :
  length l1 = length l2 -> In b l2 -> (forall a, f a b = c) -> In c (map2 f l1 l2).
Proof.
  revert l2; induction l1 as [|a l1 IH]; intros [|b' l2] Hl Hb Hf; simpl in *;
    try contradiction; try discriminate.
  destruct Hb as [-> | Hb]; [left; apply Hf|].
  right. apply IH; trivial. lia.
Qed.

Section Forward.
Variable self : Snake.
Variable x : tensor.

Hypothesis wf_x : wf x.
Hypothesis wf_a : wf (value (alpha self)).

Lemma forward_broadcast (so : list nat) :
  broadcast_shapes (shape x) (shape (value (alpha self))) = Some so ->
  forward x self =
  (Ok (mkTensor so
         (map2 snake_elem
            (expand (pad (length so) (shape x)) so (data x))
            (expand (pad (length so) (shape (value (alpha self)))) so
               (data (value (alpha self)))))),
   self).
Proof.
  intros Hb.
  destruct (broadcast_shapes_some _ _ Hb) as [Hlen [Ex [Ea [Ba Bx]]]].
  set (X := expand (pad (length so) (shape x)) so (data x)).
  set (A := expand (pad (length so) (shape (value (alpha self)))) so
              (data (value (alpha self)))).
  assert (HX : length X = numel so).
  { apply expand_length; trivial. rewrite numel_pad. exact wf_x. }
  assert (HA : length A = numel so).
  { apply expand_length; trivial. rewrite numel_pad. exact wf_a. }
  unfold forward, bindM, self_alpha, ret, mul, add, binop.
  rewrite Hb. cbn [shape data rdiv_scalar pow sin tmap].
  rewrite Ba. cbn [shape data].
  rewrite Bx. cbn [shape data].
  rewrite (pad_full (k := length so) so) by lia.
  fold X.
  rewrite !expand_map.
  fold A.
  rewrite (expand_id so (map2 fmul X A))
    by (rewrite map2_length, HX, HA; lia).
  rewrite (expand_id so)
    by (rewrite map2_length, !length_map, map2_length, HX, HA; lia).
  now rewrite map2_snake.
Qed.

Lemma forward_mismatch :
  broadcast_shapes (shape x) (shape (value (alpha self))) = None ->
  forward x self = (Raise RuntimeError, self).
Proof.
  intros Hb. unfold forward, bindM, self_alpha, ret, mul, binop.
  now rewrite Hb.
Qed.

End Forward.

(** ** Inputs whose trailing dimension is the length of the parameter *)

Lemma numel_app (s1 s2 : list nat) : numel (s1 ++ s2) = (numel s1 * numel s2)%nat.
Proof.
  induction s1 as [|d s1 IH]; simpl; [lia|]. rewrite IH. lia.
Qed.

Lemma numel_ones (k : nat) : numel (repeat 1%nat k) = 1%nat.
Proof. induction k as [|k IH]; simpl; [reflexivity|]. rewrite IH. reflexivity. Qed.

Lemma concat_repeat_mul (A : Type) (l : list A) (k e : nat) :
  concat (repeat (concat (repeat l k)) e) = concat (repeat l (e * k)).
Proof.
  induction e as [|e IH]; simpl; [reflexivity|].
  now rewrite repeat_app, concat_app, IH.
Qed.

(** A vector seen at a shape of higher rank is repeated along the leading
    dimensions. *)
Lemma expand_leading (A : Type) (lead : list nat) (n m : nat) (l : list A) :
  length l = n ->
  expand (repeat 1%nat (length lead) ++ [n]) (lead ++ [m]) l
  = concat (repeat (expand [n] [m] l) (numel lead)).
Proof.
  intros Hl. induction lead as [|e lead IH].
  - cbn [length repeat app numel fold_right concat]. now rewrite app_nil_r.
  - cbn [length repeat app]. cbn [expand]. fold (expand (A := A)).
    rewrite chunks_one by (rewrite numel_app, numel_ones; simpl; lia).
    cbn [map concat]. rewrite IH, app_nil_r.
    destruct (Nat.eqb_spec 1 e) as [<- | _].
    + simpl. now rewrite Nat.add_0_r.
    + now rewrite concat_repeat_mul.
Qed.

Lemma expand_tile (A : Type) (lead : list nat) (n : nat) (l : list A) :
  length l = n ->
  expand (repeat 1%nat (length lead) ++ [n]) (lead ++ [n]) l
  = concat (repeat l (numel lead)).
Proof.
  intros Hl. rewrite expand_leading by exact Hl.
  now rewrite expand_id by (simpl; lia).
Qed.

Lemma bdims_trailing (lead : list nat) (m n : nat) :
  m = n \/ n = 1%nat ->
  bdims (lead ++ [m]) (repeat 1%nat (length lead) ++ [n]) = Some (lead ++ [m]).
Proof.
  intros Hmn. induction lead as [|e lead IH]; simpl.
  - unfold bdim. destruct (Nat.eqb_spec m n) as [_ | Hne]; [reflexivity|].
    destruct Hmn as [-> | ->]; [contradiction|].
    destruct (Nat.eqb_spec m 1) as [-> | _]; reflexivity.
  - rewrite IH. unfold bdim.
    destruct (Nat.eqb_spec e 1) as [-> | _]; [reflexivity|].
    reflexivity.
Qed.

Lemma broadcast_trailing (lead : list nat) (m n : nat) :
  m = n \/ n = 1%nat ->
  broadcast_shapes (lead ++ [m]) [n] = Some (lead ++ [m]).
Proof.
  intros Hmn. unfold broadcast_shapes.
  rewrite length_app. cbn [length].
  replace (Nat.max (length lead + 1) 1) with (length lead + 1)%nat by lia.
  rewrite pad_full by (rewrite length_app; simpl; lia).
  unfold pad. cbn [length].
  replace (length lead + 1 - 1)%nat with (length lead) by lia.
  now apply bdims_trailing.
Qed.

Lemma nth_tile (A : Type) (l : list A) (k i : nat) (d : A) :
  (i < k * length l)%nat ->
  nth i (concat (repeat l k)) d = nth (i mod length l) l d.
Proof.
  revert i; induction k as [|k IH]; intros i Hi; [lia|].
  cbn [repeat concat].
  destruct (Nat.lt_ge_cases i (length l)) as [Hlt | Hge].
  - rewrite app_nth1 by exact Hlt. now rewrite Nat.mod_small.
  - rewrite app_nth2 by exact Hge.
    rewrite IH by lia.
    replace i with ((i - length l) + 1 * length l)%nat at 2 by lia.
    now rewrite Nat.Div0.mod_add.
Qed.

Lemma nth_map2 (A B C : Type) (f : A -> B -> C) (l1 : list A) (l2 : list B)
    (i : nat) (a : A) (b : B) (c : C) :
  (i < length l1)%nat -> (i < length l2)%nat ->
  nth i (map2 f l1 l2) c = f (nth i l1 a) (nth i l2 b).
Proof.
  revert l1 l2; induction i as [|i IH]; intros [|a1 l1] [|b1 l2] H1 H2;
    simpl in *; try lia; trivial.
  apply IH; lia.
Qed.

(** The input of shape [lead ++ [n]] against a vector of length [n]. *)
Lemma forward_trailing (self : Snake) (x : tensor) (lead : list nat) (n : nat) :
  vector n (alpha self) -> wf x -> shape x = lead ++ [n] ->
  forward x self =
  (Ok (mkTensor (lead ++ [n])
         (map2 snake_elem (data x)
            (concat (repeat (data (value (alpha self))) (numel lead))))),
   self).
Proof.
  intros [Hs Hl] Hx Hsx.
  assert (Hwa : wf (value (alpha self))).
  { unfold wf. rewrite Hs, Hl. simpl. lia. }
  rewrite (@forward_broadcast self x Hx Hwa (lead ++ [n])).
  - rewrite Hsx, Hs.
    rewrite pad_full by lia.
    rewrite expand_id by (rewrite <- Hsx; exact Hx).
    unfold pad. rewrite length_app. cbn [length].
    replace (length lead + 1 - 1)%nat with (length lead) by lia.
    now rewrite expand_tile.
  - rewrite Hsx, Hs. apply broadcast_trailing. now left.
Qed.

(** ** Rounding *)

Unset Implicit Arguments.

Section Rounding.

Local Open Scope R_scope.

(** *** Powers of two *)

Lemma bpow_pos (e : Z) : 0 < bpow e.
Proof. apply powerRZ_lt. lra. Qed.

Lemma bpow_add (a b : Z) : bpow (a + b) = bpow a * bpow b.
Proof. apply powerRZ_add. lra. Qed.

Lemma bpow_IZR (e : Z) : (0 <= e)%Z -> bpow e = IZR (2 ^ e).
Proof.
  intros He. unfold bpow. rewrite <- (Z2Nat.id e) by exact He.
  rewrite <- pow_powerRZ. now rewrite pow_IZR.
Qed.

Lemma bpow_ge_1 (e : Z) : (0 <= e)%Z -> 1 <= bpow e.
Proof.
  intros He. rewrite bpow_IZR by exact He. apply IZR_le.
  assert (0 < 2 ^ e)%Z by (apply Z.pow_pos_nonneg; lia). lia.
Qed.

Lemma bpow_le (a b : Z) : (a <= b)%Z -> bpow a <= bpow b.
Proof.
  intros H. replace b with (a + (b - a))%Z by lia. rewrite bpow_add.
  pose proof (bpow_pos a). pose proof (bpow_ge_1 (b - a) ltac:(lia)). nra.
Qed.

Lemma bpow_lt (a b : Z) : (a < b)%Z -> bpow a < bpow b.
Proof.
  intros H. replace b with (a + (b - a))%Z by lia. rewrite bpow_add.
  pose proof (bpow_pos a).
  assert (2 <= bpow (b - a)).
  { replace (b - a)%Z with (1 + (b - a - 1))%Z by lia. rewrite bpow_add.
    pose proof (bpow_ge_1 (b - a - 1) ltac:(lia)).
    change (bpow 1) with (2 * 1). lra. }
  nra.
Qed.

Lemma bpow_lt_inv (a b : Z) : bpow a < bpow b -> (a < b)%Z.
Proof.
  intros H. destruct (Z_lt_le_dec a b) as [Hlt | Hge]; [exact Hlt|].
  pose proof (bpow_le _ _ Hge). lra.
Qed.

(** *** The integer part *)
Lemma Int_part_spec (t : R) : IZR (Int_part t) <= t < IZR (Int_part t) + 1.
Proof. pose proof (base_Int_part t). lra. Qed.

Lemma Int_part_unique (t : R) (k : Z) : IZR k <= t < IZR k + 1 -> Int_part t = k.
Proof.
  intros [H1 H2]. pose proof (Int_part_spec t) as [H3 H4].
  assert (IZR k < IZR (Int_part t) + 1) by lra.
  assert (IZR (Int_part t) < IZR k + 1) by lra.
  rewrite <- plus_IZR in *. apply lt_IZR in H, H0. lia.
Qed.

Lemma Int_part_IZR (k : Z) : Int_part (IZR k) = k.
Proof. apply Int_part_unique. lra. Qed.

Lemma Int_part_le (t1 t2 : R) : t1 <= t2 -> (Int_part t1 <= Int_part t2)%Z.
Proof.
  intros H. pose proof (Int_part_spec t1). pose proof (Int_part_spec t2).
  assert (IZR (Int_part t1) < IZR (Int_part t2) + 1) by lra.
  rewrite <- plus_IZR in H2. apply lt_IZR in H2. lia.
Qed.

(** *** The nearest integer *)
Lemma rne_IZR (k : Z) : rne (IZR k) = k.
Proof.
  unfold rne. rewrite Int_part_IZR.
  destruct (Rlt_dec (IZR k - IZR k) (1 / 2)); [reflexivity | lra].
Qed.

Lemma rne_floor (t : R) : (Int_part t <= rne t <= Int_part t + 1)%Z.
Proof.
  unfold rne. destruct (Rlt_dec (t - IZR (Int_part t)) (1 / 2));
    [|destruct (Rlt_dec (1 / 2) (t - IZR (Int_part t)))];
    try destruct (Z.even (Int_part t)); lia.
Qed.

Lemma rne_le (t1 t2 : R) : t1 <= t2 -> (rne t1 <= rne t2)%Z.
Proof.
  intros H. pose proof (Int_part_le _ _ H) as Hf.
  pose proof (rne_floor t1). pose proof (rne_floor t2).
  destruct (Z.eq_dec (Int_part t1) (Int_part t2)) as [E | NE]; [|lia].
  unfold rne. rewrite E.
  destruct (Rlt_dec (t1 - IZR (Int_part t2)) (1 / 2));
    destruct (Rlt_dec (t2 - IZR (Int_part t2)) (1 / 2));
    try destruct (Rlt_dec (1 / 2) (t1 - IZR (Int_part t2)));
    try destruct (Rlt_dec (1 / 2) (t2 - IZR (Int_part t2)));
    try destruct (Z.even (Int_part t2)); try lia; lra.
Qed.

Lemma rne_opp (t : R) : rne (- t) = (- rne t)%Z.
Proof.
  pose proof (Int_part_spec t) as [H1 H2].
  destruct (Req_dec (IZR (Int_part t)) t) as [E | NE].
  - rewrite <- E, <- opp_IZR, !rne_IZR. reflexivity.
  - assert (Hf : Int_part (- t) = (- Int_part t - 1)%Z).
    { apply Int_part_unique. rewrite minus_IZR, opp_IZR. lra. }
    unfold rne. rewrite Hf. rewrite minus_IZR, opp_IZR.
    destruct (Rlt_dec (t - IZR (Int_part t)) (1 / 2));
      destruct (Rlt_dec (- t - (- IZR (Int_part t) - 1)) (1 / 2)); try lra.
    + destruct (Rlt_dec (1 / 2) (- t - (- IZR (Int_part t) - 1))); [lia | lra].
    + destruct (Rlt_dec (1 / 2) (t - IZR (Int_part t))); [lia | lra].
    + destruct (Rlt_dec (1 / 2) (t - IZR (Int_part t))); [lra|].
      destruct (Rlt_dec (1 / 2) (- t - (- IZR (Int_part t) - 1))); [lra|].
      replace (- Int_part t - 1)%Z with (- (Int_part t + 1))%Z by lia.
      rewrite Z.even_opp, Z.even_add. simpl.
      destruct (Z.even (Int_part t)); simpl; lia.
Qed.

(** *** Binades *)
Lemma ln2_pos : 0 < ln 2.
Proof. rewrite <- ln_1. apply ln_increasing; lra. Qed.

Lemma bpow_Rpower (e : Z) : bpow e = Rpower 2 (IZR e).
Proof. apply powerRZ_Rpower. lra. Qed.

Lemma mag_spec (r : R) : r <> 0 -> bpow (mag r - 1) <= Rabs r < bpow (mag r).
Proof.
  intros Hr. unfold mag.
  set (t := ln (Rabs r) / ln 2).
  pose proof (archimed t) as [H1 H2].
  assert (Ha : 0 < Rabs r) by (apply Rabs_pos_lt; exact Hr).
  assert (Hx : Rabs r = Rpower 2 t).
  { unfold Rpower, t. replace (ln (Rabs r) / ln 2 * ln 2) with (ln (Rabs r)).
    - now rewrite exp_ln.
    - field. pose proof ln2_pos. lra. }
  rewrite !bpow_Rpower, Hx, minus_IZR. split.
  - apply Rle_Rpower; lra.
  - apply Rpower_lt; lra.
Qed.

Lemma mag_unique (r : R) (k : Z) :
  bpow (k - 1) <= Rabs r < bpow k -> mag r = k.
Proof.
  intros [H1 H2].
  assert (Hr : r <> 0).
  { intros ->. rewrite Rabs_R0 in H1. pose proof (bpow_pos (k - 1)). lra. }
  pose proof (mag_spec r Hr) as [H3 H4].
  assert (bpow (k - 1) < bpow (mag r)) by lra.
  assert (bpow (mag r - 1) < bpow k) by lra.
  apply bpow_lt_inv in H, H0. lia.
Qed.

Lemma mag_opp (r : R) : mag (- r) = mag r.
Proof. unfold mag. now rewrite Rabs_Ropp. Qed.

Lemma mag_le (r1 r2 : R) : r1 <> 0 -> Rabs r1 <= Rabs r2 -> (mag r1 <= mag r2)%Z.
Proof.
  intros H1 H.
  assert (H2 : r2 <> 0).
  { intros ->. rewrite Rabs_R0 in H. pose proof (Rabs_pos_lt r1 H1). lra. }
  pose proof (mag_spec r1 H1). pose proof (mag_spec r2 H2).
  assert (bpow (mag r1 - 1) < bpow (mag r2)) by lra.
  apply bpow_lt_inv in H4. lia.
Qed.

Lemma mag_bpow (e : Z) : mag (bpow e) = (e + 1)%Z.
Proof.
  apply mag_unique. rewrite Rabs_right by (pose proof (bpow_pos e); lra).
  replace (e + 1 - 1)%Z with e by lia. split; [lra|]. apply bpow_lt. lia.
Qed.

Lemma fexp_opp (r : R) : fexp (- r) = fexp r.
Proof. unfold fexp. now rewrite mag_opp. Qed.

(** *** The rounded value *)
Lemma rnd_0 : rnd 0 = 0.
Proof.
  unfold rnd. replace (0 / bpow (fexp 0)) with 0.
  - change 0 with (IZR 0) at 1. rewrite rne_IZR. simpl. ring.
  - unfold Rdiv. ring.
Qed.

Lemma rnd_opp (r : R) : rnd (- r) = - rnd r.
Proof.
  unfold rnd. rewrite fexp_opp.
  replace (- r / bpow (fexp r)) with (- (r / bpow (fexp r))) by (unfold Rdiv; ring).
  rewrite rne_opp, opp_IZR. ring.
Qed.

Lemma rnd_format (v : R) : format v -> rnd v = v.
Proof.
  intros [k Hk]. unfold rnd.
  replace (v / bpow (fexp v)) with (IZR k).
  - now rewrite rne_IZR.
  - rewrite Hk at 1. field. pose proof (bpow_pos (fexp v)). lra.
Qed.

Lemma rnd_nonneg (r : R) : 0 <= r -> 0 <= rnd r.
Proof.
  intros H. unfold rnd. pose proof (bpow_pos (fexp r)) as Hb.
  assert (0 <= rne (r / bpow (fexp r)))%Z.
  { rewrite <- (rne_IZR 0). apply rne_le. apply Rmult_le_pos; [exact H|].
    left. now apply Rinv_0_lt_compat. }
  apply IZR_le in H0. nra.
Qed.

(** Comparison with a point of the grid. *)
Lemma rnd_le_grid (r : R) (k : Z) :
  r <= IZR k * bpow (fexp r) -> rnd r <= IZR k * bpow (fexp r).
Proof.
  intros H. unfold rnd. pose proof (bpow_pos (fexp r)) as Hb.
  assert (rne (r / bpow (fexp r)) <= k)%Z.
  { rewrite <- (rne_IZR k). apply rne_le.
    apply (Rmult_le_reg_r (bpow (fexp r))); [exact Hb|].
    unfold Rdiv. rewrite Rmult_assoc, Rinv_l by lra. lra. }
  apply IZR_le in H0. nra.
Qed.

Lemma rnd_ge_grid (r : R) (k : Z) :
  IZR k * bpow (fexp r) <= r -> IZR k * bpow (fexp r) <= rnd r.
Proof.
  intros H. unfold rnd. pose proof (bpow_pos (fexp r)) as Hb.
  assert (k <= rne (r / bpow (fexp r)))%Z.
  { rewrite <- (rne_IZR k) at 1. apply rne_le.
    apply (Rmult_le_reg_r (bpow (fexp r))); [exact Hb|].
    unfold Rdiv. rewrite Rmult_assoc, Rinv_l by lra. lra. }
  apply IZR_le in H0. nra.
Qed.

(** A power of two above the exponent of the grid is on the grid. *)
Lemma bpow_grid (m e : Z) : (e <= m)%Z -> bpow m = IZR (2 ^ (m - e)) * bpow e.
Proof.
  intros H. rewrite <- bpow_IZR by lia. rewrite <- bpow_add. f_equal. lia.
Qed.

Lemma rnd_upper (r : R) : 0 < r -> rnd r <= bpow (Z.max (mag r) (fexp r)).
Proof.
  intros Hr.
  rewrite (bpow_grid (Z.max (mag r) (fexp r)) (fexp r)) by lia.
  apply rnd_le_grid.
  rewrite <- bpow_grid by lia.
  pose proof (mag_spec r ltac:(lra)) as [_ H].
  rewrite Rabs_right in H by lra.
  pose proof (bpow_le (mag r) (Z.max (mag r) (fexp r)) ltac:(lia)). lra.
Qed.

Lemma rnd_lower (r : R) :
  0 < r -> (fexp r < mag r)%Z -> bpow (mag r - 1) <= rnd r.
Proof.
  intros Hr He.
  rewrite (bpow_grid (mag r - 1) (fexp r)) by lia.
  apply rnd_ge_grid.
  rewrite <- bpow_grid by lia.
  pose proof (mag_spec r ltac:(lra)) as [H _].
  now rewrite Rabs_right in H by lra.
Qed.

Lemma rnd_le_pos (r1 r2 : R) : 0 < r1 -> r1 <= r2 -> rnd r1 <= rnd r2.
Proof.
  intros H1 H.
  assert (Hm : (mag r1 <= mag r2)%Z).
  { apply mag_le; [lra|]. rewrite !Rabs_right by lra. exact H. }
  assert (He : (fexp r1 <= fexp r2)%Z) by (unfold fexp; lia).
  destruct (Z.eq_dec (fexp r1) (fexp r2)) as [E | NE].
  - unfold rnd. rewrite E. pose proof (bpow_pos (fexp r2)) as Hb.
    assert (rne (r1 / bpow (fexp r2)) <= rne (r2 / bpow (fexp r2)))%Z.
    { apply rne_le. unfold Rdiv. apply Rmult_le_compat_r; [|exact H].
      left. now apply Rinv_0_lt_compat. }
    apply IZR_le in H0. nra.
  - assert (Hn : fexp r2 = (mag r2 - 24)%Z) by (unfold fexp in *; lia).
    pose proof (rnd_upper r1 H1) as Hu.
    pose proof (rnd_lower r2 ltac:(lra) ltac:(lia)) as Hl.
    assert (Z.max (mag r1) (fexp r1) <= mag r2 - 1)%Z by (unfold fexp in *; lia).
    pose proof (bpow_le _ _ H0). lra.
Qed.

Lemma rnd_le (r1 r2 : R) : r1 <= r2 -> rnd r1 <= rnd r2.
Proof.
  intros H.
  destruct (Rlt_le_dec 0 r1) as [Hp | Hn].
  - now apply rnd_le_pos.
  - destruct (Rle_lt_dec 0 r2) as [Hp2 | Hn2].
    + pose proof (rnd_nonneg r2 Hp2).
      pose proof (rnd_nonneg (- r1) ltac:(lra)). rewrite rnd_opp in H1. lra.
    + pose proof (rnd_le_pos (- r2) (- r1) ltac:(lra) ltac:(lra)) as Hq.
      rewrite !rnd_opp in Hq. lra.
Qed.

Lemma format_0 : format 0.
Proof. exists 0%Z. ring. Qed.

Lemma format_opp (v : R) : format v -> format (- v).
Proof.
  intros [k Hk]. exists (- k)%Z. rewrite fexp_opp, opp_IZR. rewrite Hk at 1. ring.
Qed.

Lemma format_bpow (e : Z) : (-149 <= e)%Z -> format (bpow e).
Proof.
  intros He. unfold format, fexp. rewrite mag_bpow.
  exists (2 ^ (e - Z.max (e + 1 - 24) (-149)))%Z.
  apply bpow_grid. lia.
Qed.

Lemma rnd_pos_format (r : R) : 0 < r -> format (rnd r).
Proof.
  intros Hr.
  pose proof (rnd_nonneg r ltac:(lra)) as H0.
  destruct (Req_dec (rnd r) 0) as [E | NE]; [rewrite E; apply format_0|].
  assert (Hv : 0 < rnd r) by lra.
  pose proof (rnd_upper r Hr) as Hu.
  destruct (Z_lt_le_dec (fexp r) (mag r)) as [Hn | Hs].
  - pose proof (rnd_lower r Hr Hn) as Hl.
    rewrite Z.max_l in Hu by lia.
    destruct (Req_dec (rnd r) (bpow (mag r))) as [Et | Nt].
    + rewrite Et. apply format_bpow. unfold fexp in Hn. lia.
    + assert (Hm : mag (rnd r) = mag r).
      { apply mag_unique. rewrite Rabs_right by lra. lra. }
      exists (rne (r / bpow (fexp r))).
      unfold fexp at 2. rewrite Hm. reflexivity.
  - assert (He : fexp r = (-149)%Z) by (unfold fexp in *; lia).
    rewrite Z.max_r in Hu by lia. rewrite He in Hu.
    assert (Hk : (1 <= rne (r / bpow (fexp r)))%Z).
    { assert (0 < IZR (rne (r / bpow (fexp r)))).
      { unfold rnd in Hv. pose proof (bpow_pos (fexp r)). nra. }
      apply lt_IZR in H. lia. }
    assert (Hge : bpow (-149) <= rnd r).
    { unfold rnd. rewrite He in *. apply IZR_le in Hk.
      pose proof (bpow_pos (-149)). nra. }
    replace (rnd r) with (bpow (-149)) by lra.
    apply format_bpow. lia.
Qed.

Lemma rnd_is_format (r : R) : format (rnd r).
Proof.
  destruct (Rtotal_order r 0) as [Hn | [-> | Hp]].
  - replace r with (- - r) by ring. rewrite rnd_opp.
    apply format_opp, rnd_pos_format. lra.
  - rewrite rnd_0. apply format_0.
  - now apply rnd_pos_format.
Qed.

Lemma rnd_idem (r : R) : rnd (rnd r) = rnd r.
Proof. apply rnd_format, rnd_is_format. Qed.

Lemma rnd_bpow (e : Z) : (-149 <= e)%Z -> rnd (bpow e) = bpow e.
Proof. intros He. now apply rnd_format, format_bpow. Qed.

Lemma rnd_1 : rnd 1 = 1.
Proof. apply (rnd_bpow 0). lia. Qed.

Lemma rnd_abs_le (r b : R) : format b -> Rabs r <= b -> Rabs (rnd r) <= b.
Proof.
  intros Hb H.
  assert (H1 : - b <= r) by (unfold Rabs in H; destruct (Rcase_abs r); lra).
  assert (H2 : r <= b) by (unfold Rabs in H; destruct (Rcase_abs r); lra).
  apply Rabs_le. split.
  - rewrite <- (rnd_format (- b)) by (now apply format_opp). now apply rnd_le.
  - rewrite <- (rnd_format b Hb). now apply rnd_le.
Qed.

Lemma round32_0 : round32 0 = Fin 0.
Proof.
  unfold round32. rewrite rnd_0, Rabs_R0.
  destruct (Rle_dec (bpow 128) 0) as [H | _]; [|reflexivity].
  pose proof (bpow_pos 128). lra.
Qed.

Lemma round32_Fin (r v : R) :
  round32 r = Fin v -> v = rnd r /\ Rabs v < bpow 128.
Proof.
  unfold round32. destruct (Rle_dec (bpow 128) (Rabs (rnd r))) as [H | H];
    [discriminate|].
  intros E. inversion E; subst. split; [reflexivity | lra].
Qed.

Lemma round32_small (r b : R) :
  format b -> b < bpow 128 -> Rabs r <= b ->
  round32 r = Fin (rnd r) /\ Rabs (rnd r) <= b.
Proof.
  intros Hf Hb H. pose proof (rnd_abs_le r b Hf H) as Hr.
  split; [|exact Hr]. unfold round32.
  destruct (Rle_dec (bpow 128) (Rabs (rnd r))) as [H' | _]; [lra | reflexivity].
Qed.

Lemma round32_between (r lo hi : R) :
  format lo -> format hi -> - bpow 128 < lo -> hi < bpow 128 ->
  lo <= r <= hi ->
  round32 r = Fin (rnd r) /\ lo <= rnd r <= hi.
Proof.
  intros Flo Fhi Hlo Hhi [H1 H2].
  assert (Hb : lo <= rnd r <= hi).
  { split.
    - rewrite <- (rnd_format lo Flo). now apply rnd_le.
    - rewrite <- (rnd_format hi Fhi). now apply rnd_le. }
  split; [|exact Hb]. unfold round32.
  destruct (Rle_dec (bpow 128) (Rabs (rnd r))) as [H' | _]; [|reflexivity].
  unfold Rabs in H'. destruct (Rcase_abs (rnd r)); lra.
Qed.

Lemma binary32_format (r : R) : binary32 r -> format r /\ Rabs r < bpow 128.
Proof.
  intros H. apply round32_Fin in H. destruct H as [E Hb]. split; [|exact Hb].
  rewrite E. apply rnd_is_format.
Qed.

Lemma round32_overflow (r : R) : bpow 128 <= r -> round32 r = Inf false.
Proof.
  intros H. pose proof (bpow_pos 128) as Hp.
  pose proof (rnd_le _ _ H) as Hr. rewrite rnd_bpow in Hr by lia.
  unfold round32.
  destruct (Rle_dec (bpow 128) (Rabs (rnd r))) as [_ | H'].
  - unfold Rneg. destruct (Rlt_dec r 0); [lra | reflexivity].
  - elim H'. rewrite Rabs_right by lra. exact Hr.
Qed.

Lemma format_1 : format 1.
Proof. apply (format_bpow 0). lia. Qed.

Lemma bpow_128_gt_1 : 1 < bpow 128.
Proof. apply (bpow_lt 0 128). lia. Qed.

Lemma round32_within (r lo hi : R) :
  - bpow 128 < lo -> hi < bpow 128 -> lo <= rnd r <= hi ->
  round32 r = Fin (rnd r).
Proof.
  intros Hlo Hhi Hb. unfold round32.
  destruct (Rle_dec (bpow 128) (Rabs (rnd r))) as [H' | _]; [|reflexivity].
  unfold Rabs in H'. destruct (Rcase_abs (rnd r)); lra.
Qed.

Lemma Rabs_lt_inv (x b : R) : Rabs x < b -> - b < x < b.
Proof. unfold Rabs. destruct (Rcase_abs x); lra. Qed.

(** *** A small addend is absorbed *)

Lemma rne_near (k : Z) (d : R) : 0 <= d < 1 / 2 -> rne (IZR k + d) = k.
Proof.
  intros Hd. unfold rne.
  assert (Hf : Int_part (IZR k + d) = k) by (apply Int_part_unique; lra).
  rewrite Hf.
  destruct (Rlt_dec (IZR k + d - IZR k) (1 / 2)) as [_ | H]; [reflexivity | lra].
Qed.

Lemma rnd_absorb (x t : R) :
  format x -> bpow 25 <= x -> 0 <= t <= 1 -> rnd (x + t) = x.
Proof.
  intros [k Hk] Hx Ht.
  pose proof (bpow_pos 25) as H25.
  pose proof (mag_spec x ltac:(lra)) as [Hlo Hhi].
  rewrite Rabs_right in Hlo, Hhi by lra.
  assert (Hm : (26 <= mag x)%Z).
  { assert (bpow 25 < bpow (mag x)) by lra. apply bpow_lt_inv in H. lia. }
  assert (He : fexp x = (mag x - 24)%Z) by (unfold fexp; lia).
  pose proof (bpow_pos (fexp x)) as Hbe.
  assert (Hb4 : 4 <= bpow (fexp x)).
  { assert (E : bpow 2 = 4) by (rewrite bpow_IZR by lia; reflexivity).
    rewrite <- E. apply bpow_le. lia. }
  assert (Hgrid : bpow (mag x) = IZR (2 ^ 24) * bpow (fexp x)).
  { rewrite (bpow_grid (mag x) (fexp x)) by lia.
    replace (mag x - fexp x)%Z with 24%Z by lia. reflexivity. }
  assert (Hk24 : (k < 2 ^ 24)%Z).
  { apply lt_IZR. apply (Rmult_lt_reg_r (bpow (fexp x))); [exact Hbe|].
    rewrite <- Hk, <- Hgrid. exact Hhi. }
  assert (Hx1 : x + t < bpow (mag x)).
  { assert (IZR k <= IZR (2 ^ 24) - 1).
    { rewrite <- minus_IZR. apply IZR_le. lia. }
    rewrite Hgrid. set (B := bpow (fexp x)) in *. rewrite Hk. nra. }
  assert (Hmag : mag (x + t) = mag x).
  { apply mag_unique. rewrite Rabs_right by lra. lra. }
  unfold rnd. unfold fexp at 1 2. rewrite Hmag. fold (fexp x).
  replace ((x + t) / bpow (fexp x)) with (IZR k + t / bpow (fexp x)).
  - rewrite rne_near; [symmetry; exact Hk|].
    split.
    + apply Rmult_le_pos; [lra|]. left. now apply Rinv_0_lt_compat.
    + apply (Rmult_lt_reg_r (bpow (fexp x))); [exact Hbe|].
      unfold Rdiv. rewrite Rmult_assoc, Rinv_l by lra. lra.
  - set (B := bpow (fexp x)) in *. rewrite Hk. field. lra.
Qed.

(** *** The parts of an element *)
Lemma fsin_bounds (v : R) :
  exists s, fsin (Fin v) = Fin s /\ -1 <= s <= 1.
Proof.
  destruct (round32_small (Rtrigo_def.sin v) 1 format_1 bpow_128_gt_1) as [Es Hs].
  { apply Rabs_le. pose proof (SIN_bound v). lra. }
  exists (rnd (Rtrigo_def.sin v)). split; [exact Es|].
  unfold Rabs in Hs. destruct (Rcase_abs (rnd (Rtrigo_def.sin v))); lra.
Qed.

Lemma fpow2_bounds (s : R) :
  -1 <= s <= 1 -> exists s2, fpow (Fin s) 2 = Fin s2 /\ 0 <= s2 <= 1.
Proof.
  intros Hs.
  destruct (round32_between (s ^ 2) 0 1 format_0 format_1) as [E2 H2];
    try (pose proof bpow_128_gt_1; lra).
  { simpl. nra. }
  exists (rnd (s ^ 2)). split; [exact E2 | exact H2].
Qed.

(** The periodic term lies between 0 and the reciprocal. *)
Lemma periodic_term (xv : fp) (ar q v : R) :
  ar <> 0 ->
  fdiv (Fin 1) (Fin ar) = Fin q ->
  fmul xv (Fin ar) = Fin v ->
  exists t,
    fmul (fdiv (Fin 1) (Fin ar)) (fpow (fsin (fmul xv (Fin ar))) 2) = Fin t /\
    (0 <= q -> 0 <= t <= q) /\ (q <= 0 -> q <= t <= 0).
Proof.
  intros Ha Hq Hprod. rewrite Hq, Hprod.
  destruct (fsin_bounds v) as [s [Es Hs]]. rewrite Es.
  destruct (fpow2_bounds s Hs) as [s2 [E2 H2]]. rewrite E2.
  cbn [fdiv] in Hq. destruct (Req_dec_T ar 0) as [H0 | _]; [contradiction|].
  destruct (round32_Fin _ _ Hq) as [Eq Bq].
  assert (Fq : format q) by (rewrite Eq; apply rnd_is_format).
  apply Rabs_lt_inv in Bq.
  cbn [fmul].
  destruct (Req_dec_T q 1) as [-> | _].
  { exists s2. split; [reflexivity|]. split; lra. }
  destruct (Req_dec_T s2 1) as [-> | _].
  { exists q. split; [reflexivity|]. split; lra. }
  destruct (Rle_lt_dec 0 q) as [Hp | Hn].
  - destruct (round32_between (q * s2) 0 q format_0 Fq) as [Et Hb]; try lra.
    { nra. }
    exists (rnd (q * s2)). split; [exact Et|]. split; lra.
  - destruct (round32_between (q * s2) q 0 Fq format_0) as [Et Hb]; try lra.
    { nra. }
    exists (rnd (q * s2)). split; [exact Et|]. split; lra.
Qed.

Lemma snake_elem_bounds_pos (xr ar v u : R) :
  binary32 xr -> 0 < ar ->
  fmul (Fin xr) (Fin ar) = Fin v ->
  fadd (Fin xr) (fdiv (Fin 1) (Fin ar)) = Fin u ->
  exists y, snake_elem (Fin xr) (Fin ar) = Fin y /\ xr <= y <= u.
Proof.
  intros Hx Ha Hprod Hsum.
  destruct (binary32_format xr Hx) as [Fx Bx]. apply Rabs_lt_inv in Bx.
  destruct (fdiv (Fin 1) (Fin ar)) as [q | sq |] eqn:Eq; try discriminate.
  assert (Hq0 : 0 <= q).
  { cbn [fdiv] in Eq. destruct (Req_dec_T ar 0) as [H0 | _]; [lra|].
    destruct (round32_Fin _ _ Eq) as [-> _]. apply rnd_nonneg.
    left. apply Rdiv_lt_0_compat; lra. }
  destruct (periodic_term (Fin xr) ar q v ltac:(lra) Eq Hprod) as [t [Et [Hb _]]].
  specialize (Hb Hq0).
  unfold snake_elem. rewrite Et.
  cbn [fadd] in *.
  destruct (round32_Fin _ _ Hsum) as [Hu Bu]. apply Rabs_lt_inv in Bu.
  assert (Hy : xr <= rnd (xr + t) <= u).
  { split.
    - rewrite <- (rnd_format xr Fx) at 1. apply rnd_le. lra.
    - rewrite Hu. apply rnd_le. lra. }
  exists (rnd (xr + t)). split; [|exact Hy].
  apply (round32_within (xr + t) xr u); lra.
Qed.

Lemma snake_elem_bounds_neg (xr ar v u : R) :
  binary32 xr -> ar < 0 ->
  fmul (Fin xr) (Fin ar) = Fin v ->
  fadd (Fin xr) (fdiv (Fin 1) (Fin ar)) = Fin u ->
  exists y, snake_elem (Fin xr) (Fin ar) = Fin y /\ u <= y <= xr.
Proof.
  intros Hx Ha Hprod Hsum.
  destruct (binary32_format xr Hx) as [Fx Bx]. apply Rabs_lt_inv in Bx.
  destruct (fdiv (Fin 1) (Fin ar)) as [q | sq |] eqn:Eq; try discriminate.
  assert (Hq0 : q <= 0).
  { cbn [fdiv] in Eq. destruct (Req_dec_T ar 0) as [H0 | _]; [lra|].
    destruct (round32_Fin _ _ Eq) as [-> _].
    assert (H : 0 <= rnd (- (1 / ar))).
    { apply rnd_nonneg. assert (1 / ar < 0); [|lra].
      unfold Rdiv. rewrite Rmult_1_l. now apply Rinv_lt_0_compat. }
    rewrite rnd_opp in H. lra. }
  destruct (periodic_term (Fin xr) ar q v ltac:(lra) Eq Hprod) as [t [Et [_ Hb]]].
  specialize (Hb Hq0).
  unfold snake_elem. rewrite Et.
  cbn [fadd] in *.
  destruct (round32_Fin _ _ Hsum) as [Hu Bu]. apply Rabs_lt_inv in Bu.
  assert (Hy : u <= rnd (xr + t) <= xr).
  { split.
    - rewrite Hu. apply rnd_le. lra.
    - rewrite <- (rnd_format xr Fx) at 2. apply rnd_le. lra. }
  exists (rnd (xr + t)). split; [|exact Hy].
  apply (round32_within (xr + t) u xr); lra.
Qed.

End Rounding.

Set Implicit Arguments.

(** ** One element *)

Lemma fmul_1_l (c : fp) : fmul (Fin 1) c = c.
Proof.
  destruct c as [r | s |]; simpl; trivial.
  - destruct (Req_dec_T 1 1) as [_ | H]; [reflexivity | contradiction].
  - destruct (Req_dec_T 1 0) as [H | _]; [lra|].
    unfold Rneg. destruct (Rlt_dec 1 0) as [H | _]; [lra|].
    now rewrite xorb_false_r.
Qed.

Lemma fmul_nan_r (c : fp) : fmul c NaN = NaN.
Proof. destruct c; reflexivity. Qed.

Lemma fadd_nan_r (c : fp) : fadd c NaN = NaN.
Proof. destruct c; reflexivity. Qed.

Lemma fmul_0_r (r : R) : fmul (Fin r) (Fin 0) = Fin 0.
Proof.
  cbn [fmul].
  destruct (Req_dec_T r 1) as [_ | _]; [reflexivity|].
  destruct (Req_dec_T 0 1) as [H | _]; [lra|].
  rewrite Rmult_0_r. apply round32_0.
Qed.

Lemma fsin_0 : fsin (Fin 0) = Fin 0.
Proof. cbn [fsin]. rewrite sin_0. apply round32_0. Qed.

Lemma fpow2_0 : fpow (Fin 0) 2 = Fin 0.
Proof.
  cbn [fpow]. replace (0 ^ 2)%R with 0%R by (simpl; ring). apply round32_0.
Qed.

Lemma fdiv_1_0 : fdiv (Fin 1) (Fin 0) = Inf false.
Proof.
  cbn [fdiv]. destruct (Req_dec_T 0 0) as [_ | H]; [|contradiction].
  destruct (Req_dec_T 1 0) as [H | _]; [lra|].
  unfold Rneg. destruct (Rlt_dec 1 0) as [H | _]; [lra | reflexivity].
Qed.

(** Against a zero parameter the element is NaN, whatever the input. *)
Lemma snake_elem_zero (v : fp) : snake_elem v (Fin 0) = NaN.
Proof.
  unfold snake_elem. rewrite fdiv_1_0.
  destruct v as [r | s |].
  - rewrite fmul_0_r, fsin_0, fpow2_0. cbn [fmul].
    destruct (Req_dec_T 0 0) as [_ | H]; [reflexivity | contradiction].
  - cbn [fmul]. destruct (Req_dec_T 0 0) as [_ | H]; [reflexivity | contradiction].
  - reflexivity.
Qed.

Lemma snake_elem_nan (xv av : fp) :
  (forall r, xv <> Fin r) \/ (forall r, av <> Fin r) \/ av = Fin 0 ->
  snake_elem xv av = NaN.
Proof.
  intros [Hx | [Ha | ->]]; [| |apply snake_elem_zero].
  - destruct xv as [xr | sx |]; [now elim (Hx xr) | |].
    + destruct av as [ar | sa |]; unfold snake_elem.
      * cbn [fmul]. destruct (Req_dec_T ar 0); cbn [fsin fpow];
          now rewrite fmul_nan_r.
      * reflexivity.
      * reflexivity.
    + destruct av; reflexivity.
  - destruct av as [ar | sa |]; [now elim (Ha ar) | |].
    + destruct xv as [xr | sx |]; unfold snake_elem; trivial.
      cbn [fmul]. destruct (Req_dec_T xr 0); reflexivity.
    + destruct xv; reflexivity.
Qed.

Lemma Forall_tile (A : Type) (P : A -> Prop) (l : list A) (k : nat) :
  Forall P l -> Forall P (concat (repeat l k)).
Proof.
  intros H. induction k as [|k IH]; simpl; [constructor|].
  apply Forall_app. now split.
Qed.

(** ** Construction *)

Lemma init_constant (rng : nat -> fp) (n : Z) (c : fp) (tr : bool) :
  (0 <= n)%Z ->
  init rng (PyInt n) (Some c) tr =
  Ok (mkSnake (PyInt n)
        (mkParameter (mkTensor [Z.to_nat n] (repeat c (Z.to_nat n))) true
           [("requiresGrad"%string, tr)])).
Proof.
  intros Hn. unfold init, ones, check_dims. simpl.
  destruct (Z.leb_spec 0 n) as [_ | H]; [|lia].
  simpl. unfold mul_scalar, tmap, new_Parameter, setattr. simpl.
  rewrite Nat.mul_1_r.
  do 4 f_equal.
  induction (Z.to_nat n) as [|k IH]; cbn [repeat map]; [reflexivity|].
  now rewrite IH, fmul_1_l.
Qed.

Lemma init_negative (rng : nat -> fp) (n : Z) (c : fp) (tr : bool) :
  (n < 0)%Z -> init rng (PyInt n) (Some c) tr = Raise RuntimeError.
Proof.
  intros Hn. unfold init, ones, check_dims. simpl.
  destruct (Z.leb_spec 0 n) as [H | _]; [lia | reflexivity].
Qed.

(** With a sequence for size the sampler answers, with one more
    dimension than asked: the shape of its rate, [[1]]. *)
Lemma init_random_seq (rng : nat -> fp) (n : nat) (tr : bool) :
  exists self,
    init rng (PySeq [Z.of_nat n]) None tr = Ok self /\
    shape (value (alpha self)) = [n; 1%nat].
Proof.
  unfold init, Exponential_sample, check_dims. simpl.
  destruct (Z.leb_spec 0 (Z.of_nat n)) as [_ | H]; [|lia].
  simpl. eexists. split; [reflexivity|]. simpl. now rewrite Nat2Z.id.
Qed.

(** ** A vector against any broadcastable input *)

Lemma broadcast_vector_shape (sx so : list nat) (n : nat) :
  broadcast_shapes sx [n] = Some so ->
  exists lead m,
    so = lead ++ [m] /\ (n = m \/ n = 1%nat) /\
    pad (length so) [n] = repeat 1%nat (length lead) ++ [n].
Proof.
  intros Hb.
  destruct (broadcast_shapes_some _ _ Hb) as [Hlen [_ [Ea _]]].
  unfold pad in *. cbn [length] in *.
  apply Forall2_app_inv_l in Ea.
  destruct Ea as [lead [so2 [E1 [E2 Hso]]]].
  inversion E2 as [|d m r1 r2 Hnm Hr]; subst.
  inversion Hr; subst.
  exists lead, m. repeat split; trivial.
  rewrite length_app. cbn [length].
  now replace (length lead + 1 - 1)%nat with (length lead) by lia.
Qed.

(** At each position the broadcast vector shows the entry of the
    position's channel. *)
Lemma expand_vector_nth (A : Type) (sx so : list nat) (n i : nat) (l : list A) (d : A) :
  broadcast_shapes sx [n] = Some so -> length l = n -> (i < numel so)%nat ->
  nth i (expand (pad (length so) [n]) so l) d = nth (i mod n) l d.
Proof.
  intros Hb Hl Hi.
  destruct (@broadcast_vector_shape _ _ _ Hb) as [lead [m [Hso [Hnm Hpad]]]].
  rewrite Hpad. rewrite Hso. rewrite Hso, numel_app in Hi.
  cbn [numel fold_right] in Hi.
  rewrite expand_leading by exact Hl.
  destruct (Nat.eq_dec n m) as [<- | Hne].
  - rewrite expand_id by (simpl; lia).
    rewrite <- Hl. apply nth_tile. lia.
  - destruct Hnm as [-> | ->]; [contradiction|].
    destruct l as [|v [|w l]]; try discriminate.
    cbn [expand chunks numel fold_right firstn map concat app].
    destruct (Nat.eqb_spec 1 m) as [E | _]; [congruence|].
    rewrite concat_repeat_mul.
    apply (@nth_tile A [v] (numel lead * m) i d). simpl. lia.
Qed.

Unset Implicit Arguments.

(** ** Numbers of the format, overflow *)

Section Elements.

Local Open Scope R_scope.

Lemma bpow_nat (n : nat) : bpow (Z.of_nat n) = 2 ^ n.
Proof. unfold bpow. now rewrite <- pow_powerRZ. Qed.

Lemma binary32_bpow (e : Z) : (-149 <= e < 128)%Z -> binary32 (bpow e).
Proof.
  intros He. unfold binary32, round32. rewrite rnd_bpow by lia.
  pose proof (bpow_pos e) as Hp. rewrite Rabs_right by lra.
  destruct (Rle_dec (bpow 128) (bpow e)) as [H | _]; [|reflexivity].
  pose proof (bpow_lt e 128 ltac:(lia)). lra.
Qed.

Lemma binary32_0 : binary32 0.
Proof. exact round32_0. Qed.

Lemma binary32_1 : binary32 1.
Proof. apply (binary32_bpow 0). lia. Qed.

Lemma binary32_pow2 (n : nat) : (n < 128)%nat -> binary32 (2 ^ n).
Proof. intros Hn. rewrite <- bpow_nat. apply binary32_bpow. lia. Qed.

(** A quotient of magnitude at most 1 is finite. *)
Lemma fdiv_small (x y : R) :
  y <> 0 -> Rabs (x / y) <= 1 -> exists q, fdiv (Fin x) (Fin y) = Fin q.
Proof.
  intros Hy H. cbn [fdiv]. destruct (Req_dec_T y 0) as [E | _]; [contradiction|].
  destruct (round32_small (x / y) 1 format_1 bpow_128_gt_1 H) as [E _].
  now exists (rnd (x / y)).
Qed.

(** A product that overflows spoils the element. *)
Lemma snake_elem_overflow (xv av : fp) (s : bool) :
  fmul xv av = Inf s -> snake_elem xv av = NaN.
Proof.
  intros H. unfold snake_elem. rewrite H. cbn [fsin fpow].
  now rewrite fmul_nan_r, fadd_nan_r.
Qed.

Lemma fmul_overflow (x y : R) :
  x <> 1 -> y <> 1 -> bpow 128 <= x * y -> fmul (Fin x) (Fin y) = Inf false.
Proof.
  intros Hx Hy H. cbn [fmul].
  destruct (Req_dec_T x 1) as [E | _]; [contradiction|].
  destruct (Req_dec_T y 1) as [E | _]; [contradiction|].
  now apply round32_overflow.
Qed.

(** The element at the origin. *)
Lemma snake_elem_origin (a q : R) :
  a <> 0 -> fdiv (Fin 1) (Fin a) = Fin q -> snake_elem (Fin 0) (Fin a) = Fin 0.
Proof.
  intros Ha Hq. unfold snake_elem. rewrite Hq.
  assert (Hm : fmul (Fin 0) (Fin a) = Fin 0).
  { cbn [fmul]. destruct (Req_dec_T 0 1) as [E | _]; [lra|].
    destruct (Req_dec_T a 1) as [_ | _]; [reflexivity|].
    rewrite Rmult_0_l. apply round32_0. }
  rewrite Hm, fsin_0, fpow2_0, fmul_0_r.
  cbn [fadd]. rewrite Rplus_0_r. apply round32_0.
Qed.

(** Where the reciprocal of the parameter overflows. *)
Lemma fmul_0_l (a : R) : fmul (Fin 0) (Fin a) = Fin 0.
Proof.
  cbn [fmul]. destruct (Req_dec_T 0 1) as [E | _]; [lra|].
  destruct (Req_dec_T a 1) as [_ | _]; [reflexivity|].
  rewrite Rmult_0_l. apply round32_0.
Qed.

Lemma snake_elem_origin_overflow (a : R) (s : bool) :
  fdiv (Fin 1) (Fin a) = Inf s -> snake_elem (Fin 0) (Fin a) = NaN.
Proof.
  intros Hq. unfold snake_elem.
  rewrite Hq, fmul_0_l, fsin_0, fpow2_0. cbn [fmul].
  destruct (Req_dec_T 0 0) as [_ | H]; [reflexivity | contradiction].
Qed.

(** A large input absorbs the periodic term. *)
Lemma snake_elem_absorb (xr ar v : R) :
  binary32 xr -> bpow 25 <= xr -> 1 <= ar ->
  fmul (Fin xr) (Fin ar) = Fin v ->
  snake_elem (Fin xr) (Fin ar) = Fin xr.
Proof.
  intros Hx Hbig Ha Hprod.
  destruct (binary32_format xr Hx) as [Fx Bx].
  assert (Hinv : 0 <= 1 / ar <= 1).
  { unfold Rdiv. rewrite Rmult_1_l. split.
    - left. apply Rinv_0_lt_compat. lra.
    - rewrite <- Rinv_1. apply Rinv_le_contravar; lra. }
  destruct (round32_between (1 / ar) 0 1 format_0 format_1) as [Eq Hq];
    try (pose proof bpow_128_gt_1; lra).
  assert (Hd : fdiv (Fin 1) (Fin ar) = Fin (rnd (1 / ar))).
  { cbn [fdiv]. destruct (Req_dec_T ar 0) as [E | _]; [lra | exact Eq]. }
  destruct (periodic_term (Fin xr) ar (rnd (1 / ar)) v ltac:(lra) Hd Hprod)
    as [t [Et [Hb _]]].
  specialize (Hb ltac:(lra)).
  unfold snake_elem. rewrite Et. cbn [fadd].
  unfold round32. rewrite rnd_absorb by (trivial; lra).
  destruct (Rle_dec (bpow 128) (Rabs xr)) as [H | _]; [lra | reflexivity].
Qed.

End Elements.

(** ** Shapes without an empty dimension *)

Lemma bdim_numel (d e k : nat) :
  bdim d e = Some k -> d <> 0%nat -> e <> 0%nat -> k <> 0%nat.
Proof.
  unfold bdim.
  destruct (Nat.eqb d e); [intros H; inversion H; subst; trivial|].
  destruct (Nat.eqb d 1); [intros H; inversion H; subst; trivial|].
  destruct (Nat.eqb e 1); [intros H; inversion H; subst; trivial|].
  discriminate.
Qed.

Lemma bdims_numel (s1 s2 s : list nat) :
  bdims s1 s2 = Some s -> numel s1 <> 0%nat -> numel s2 <> 0%nat -> numel s <> 0%nat.
Proof.
  revert s2 s; induction s1 as [|d r1 IH]; intros [|e r2] s H H1 H2; simpl in H;
    try discriminate.
  - inversion H; subst. exact H1.
  - destruct (bdim d e) as [k|] eqn:Hd; [|discriminate].
    destruct (bdims r1 r2) as [r|] eqn:Hr; [|discriminate].
    inversion H; subst. simpl in *.
    assert (Hk : k <> 0%nat) by (apply (bdim_numel _ _ _ Hd); lia).
    assert (Hn : numel r <> 0%nat) by (apply (IH _ _ Hr); lia).
    lia.
Qed.

Lemma broadcast_numel (s1 s2 s : list nat) :
  broadcast_shapes s1 s2 = Some s ->
  numel s1 <> 0%nat -> numel s2 <> 0%nat -> numel s <> 0%nat.
Proof.
  unfold broadcast_shapes. intros H H1 H2.
  apply (bdims_numel _ _ _ H); now rewrite numel_pad.
Qed.

Set Implicit Arguments.

(** The element at each position. *)
Lemma forward_trailing_nth (self : Snake) (x : tensor) (lead : list nat) (n : nat) :
  vector n (alpha self) ->
  wf x ->
  shape x = lead ++ [n] ->
  exists y : tensor,
    forward x self = (Ok y, self) /\
    shape y = shape x /\
    length (data y) = length (data x) /\
    forall i, (i < length (data x))%nat ->
      nth i (data y) NaN
      = snake_elem (nth i (data x) NaN)
          (nth (i mod n) (data (value (alpha self))) NaN).
Proof.
  intros Hv Hx Hsx.
  pose proof Hv as [Hs Hl].
  rewrite (@forward_trailing self x lead n Hv Hx Hsx).
  set (tiled := concat (repeat (data (value (alpha self))) (numel lead))).
  assert (Hxl : length (data x) = (numel lead * n)%nat).
  { unfold wf in Hx. rewrite Hx, Hsx, numel_app. simpl. lia. }
  assert (Htl : length tiled = length (data x)).
  { unfold tiled. rewrite concat_repeat_length. lia. }
  eexists. split; [reflexivity|]. cbn [shape data].
  split; [now rewrite Hsx|]. split.
  - rewrite map2_length. lia.
  - intros i Hi.
    rewrite (nth_map2 snake_elem (data x) tiled NaN NaN NaN) by lia.
    f_equal. unfold tiled. rewrite <- Hl. apply nth_tile. lia.
Qed.

(** Finite entries: the element at each position. *)
Lemma forward_trailing_fin (self : Snake) (x : tensor) (lead : list nat) (n : nat)
    (av xv : list R) :
  shape (value (alpha self)) = [n] ->
  data (value (alpha self)) = map Fin av ->
  length av = n ->
  shape x = lead ++ [n] ->
  data x = map Fin xv ->
  length xv = (numel lead * n)%nat ->
  exists y : tensor,
    forward x self = (Ok y, self) /\
    shape y = shape x /\
    length (data y) = length xv /\
    forall i, (i < length xv)%nat ->
      nth i (data y) NaN
      = snake_elem (Fin (nth i xv 0%R)) (Fin (nth (i mod n) av 0%R)).
Proof.
  intros Hs Hd Hn Hsx Hdx Hlx.
  assert (Hv : vector n (alpha self)).
  { split; [exact Hs|]. now rewrite Hd, length_map. }
  assert (Hwx : wf x).
  { unfold wf. rewrite Hdx, Hsx, length_map, numel_app. simpl. lia. }
  rewrite (@forward_trailing self x lead n Hv Hwx Hsx).
  set (tiled := concat (repeat (data (value (alpha self))) (numel lead))).
  assert (Htl : length tiled = length xv).
  { unfold tiled. rewrite concat_repeat_length, Hd, length_map. lia. }
  eexists. split; [reflexivity|]. cbn [shape data].
  split; [now rewrite Hsx|]. split.
  { rewrite map2_length, Hdx, length_map. lia. }
  intros i Hi.
  assert (Hn0 : n <> 0%nat) by (intros ->; lia).
  assert (Hc : (i mod n < length av)%nat).
  { rewrite Hn. now apply Nat.mod_upper_bound. }
  rewrite (nth_map2 snake_elem (data x) tiled NaN NaN NaN)
    by (rewrite ?Hdx, ?length_map; lia).
  f_equal.
  - rewrite Hdx, (nth_indep _ NaN (Fin 0)) by (rewrite length_map; lia).
    apply map_nth.
  - unfold tiled. rewrite Hd.
    rewrite nth_tile by (rewrite length_map; lia).
    rewrite length_map, Hn.
    rewrite (nth_indep _ NaN (Fin 0)) by (rewrite length_map; lia).
    apply map_nth.
Qed.

Lemma map2_snake_origin (al : list R) :
  Forall (fun a => a <> 0%R /\ exists q : R, fdiv (Fin 1) (Fin a) = Fin q) al ->
  map2 snake_elem (repeat (Fin 0) (length al)) (map Fin al)
  = repeat (Fin 0) (length al).
Proof.
  induction 1 as [|a al [Ha [q Hq]] Hal IH]; cbn [length repeat map map2];
    [reflexivity|].
  now rewrite (snake_elem_origin a q Ha Hq), IH.
Qed.

Lemma map2_snake_origin_overflow (al : list R) :
  Forall (fun a => exists s : bool, fdiv (Fin 1) (Fin a) = Inf s) al ->
  map2 snake_elem (repeat (Fin 0) (length al)) (map Fin al)
  = repeat NaN (length al).
Proof.
  induction 1 as [|a al [s Hq] Hal IH]; cbn [length repeat map map2];
    [reflexivity|].
  now rewrite (snake_elem_origin_overflow a s Hq), IH.
Qed.

(** * The claims *)

(** ** Forward transform *)

(** C1, as it holds.  For a parameter vector [a] of length [n] and an
    input [x] of shape [lead ++ [n]], [forward] returns a tensor of the
    shape of [x] whose element at each position is
    [x + (1/a) * pow(sin(x*a), 2)] evaluated in binary32 arithmetic, each
    operation rounded, from the element of [x] at that position and the
    entry of [a] for its channel: [a] is broadcast across the leading
    dimensions of [x]. *)
Theorem forward_elementwise (self : Snake) (x : tensor) (lead : list nat) (n : nat) :
  vector n (alpha self) ->
  wf x ->
  shape x = lead ++ [n] ->
  exists y : tensor,
    fst (forward x self) = Ok y /\
    shape y = shape x /\
    length (data y) = length (data x) /\
    forall i, (i < length (data x))%nat ->
      nth i (data y) NaN =
      fadd (nth i (data x) NaN)
        (fmul (fdiv (Fin 1) (nth (i mod n) (data (value (alpha self))) NaN))
           (fpow
              (fsin (fmul (nth i (data x) NaN)
                       (nth (i mod n) (data (value (alpha self))) NaN)))
              2)).
Proof.
  intros Hv Hx Hsx.
  destruct (@forward_trailing_nth self x lead n Hv Hx Hsx)
    as [y [Hy [Hsh [Hly Hnth]]]].
  exists y. rewrite Hy. cbn [fst].
  split; [reflexivity|]. split; [exact Hsh|]. split; [exact Hly|].
  intros i Hi. now rewrite Hnth.
Qed.

Lemma forward_elementwise_witness :
  exists y : tensor,
    fst (forward (mkTensor [1%nat; 2%nat] [Fin 0; Fin 3])
           (mkSnake (PyInt 2) (new_Parameter (mkTensor [2%nat] [Fin 1; Fin 2])))) = Ok y /\
    shape y = [1%nat; 2%nat] /\
    length (data y) = 2%nat /\
    forall i, (i < 2)%nat ->
      nth i (data y) NaN =
      fadd (nth i [Fin 0; Fin 3] NaN)
        (fmul (fdiv (Fin 1) (nth (i mod 2) [Fin 1; Fin 2] NaN))
           (fpow
              (fsin (fmul (nth i [Fin 0; Fin 3] NaN)
                       (nth (i mod 2) [Fin 1; Fin 2] NaN)))
              2)).
Proof.
  apply (@forward_elementwise
           (mkSnake (PyInt 2) (new_Parameter (mkTensor [2%nat] [Fin 1; Fin 2])))
           (mkTensor [1%nat; 2%nat] [Fin 0; Fin 3]) [1%nat] 2).
  - split; reflexivity.
  - reflexivity.
  - reflexivity.
Defined.

(** C1 as stated fails: with [a = [4]], not zero, and [x = [2^126]] the
    product [x * a] overflows to an infinity, whose sine is NaN: the
    output is NaN, not [x + (1/a) * sin(a*x)^2]. *)
Lemma forward_formula_counterexample :
  exists self : Snake,
    init (fun _ => Fin 10) (PyInt 1) (Some (Fin 4)) true = Ok self /\
    binary32 4 /\ binary32 (2 ^ 126) /\
    fst (forward (mkTensor [1%nat] [Fin (2 ^ 126)]) self)
    = Ok (mkTensor [1%nat] [NaN]).
Proof.
  exists (mkSnake (PyInt 1)
            (mkParameter (mkTensor [1%nat] [Fin 4]) true
               [("requiresGrad"%string, true)])).
  split; [now rewrite init_constant by lia|].
  split; [|split].
  - replace 4%R with (2 ^ 2)%R by (simpl; lra). apply binary32_pow2. lia.
  - apply binary32_pow2. lia.
  - rewrite (@forward_trailing _ (mkTensor [1%nat] [Fin (2 ^ 126)]) [] 1);
      [ | split; reflexivity | reflexivity | reflexivity ].
    cbn [fst alpha value data numel fold_right repeat concat app map2].
    rewrite (@snake_elem_overflow (Fin (2 ^ 126)) (Fin 4) false); [reflexivity|].
    apply fmul_overflow.
    + assert (H : (1 < 2 ^ 126)%R) by (apply Rlt_pow_R1; [lra | lia]). lra.
    + lra.
    + change 128%Z with (Z.of_nat 128). rewrite bpow_nat.
      change 128%nat with (126 + 2)%nat. rewrite pow_add. simpl. lra.
Qed.

(** C9, as it holds.  For a parameter vector with strictly positive
    entries and an input of shape [lead ++ [n]]: at every element [x]
    that is a binary32 number and where the product [x * a] and the sum
    [x + 1/a] are finite in binary32, the output [y] is finite and lies
    between [x] and that sum, the bound [x + 1/a] computed in binary32;
    where the product [x * a] overflows, or [x] is infinite or NaN, the
    output is NaN. *)
Theorem forward_bounds (self : Snake) (x : tensor) (lead : list nat) (n : nat)
    (av : list R) :
  shape (value (alpha self)) = [n] ->
  data (value (alpha self)) = map Fin av ->
  length av = n ->
  Forall (fun a => (0 < a)%R) av ->
  wf x ->
  shape x = lead ++ [n] ->
  exists y : tensor,
    fst (forward x self) = Ok y /\
    shape y = shape x /\
    length (data y) = length (data x) /\
    forall i, (i < length (data x))%nat ->
      (forall xr v u : R,
          nth i (data x) NaN = Fin xr ->
          binary32 xr ->
          fmul (Fin xr) (Fin (nth (i mod n) av 0%R)) = Fin v ->
          fadd (Fin xr) (fdiv (Fin 1) (Fin (nth (i mod n) av 0%R))) = Fin u ->
          exists yr : R, nth i (data y) NaN = Fin yr /\ (xr <= yr <= u)%R) /\
      (forall (xr : R) (s : bool),
          nth i (data x) NaN = Fin xr ->
          fmul (Fin xr) (Fin (nth (i mod n) av 0%R)) = Inf s ->
          nth i (data y) NaN = NaN) /\
      ((forall r : R, nth i (data x) NaN <> Fin r) ->
       nth i (data y) NaN = NaN).
Proof.
  intros Hs Hd Hn Hpos Hx Hsx.
  assert (Hv : vector n (alpha self)).
  { split; [exact Hs|]. now rewrite Hd, length_map. }
  destruct (@forward_trailing_nth self x lead n Hv Hx Hsx)
    as [y [Hy [Hsh [Hly Hnth]]]].
  exists y. rewrite Hy. cbn [fst].
  split; [reflexivity|]. split; [exact Hsh|]. split; [exact Hly|].
  intros i Hi.
  assert (Hxl : length (data x) = (numel lead * n)%nat).
  { unfold wf in Hx. rewrite Hx, Hsx, numel_app. simpl. lia. }
  assert (Hc : (i mod n < length av)%nat).
  { rewrite Hn. apply Nat.mod_upper_bound. intros ->. lia. }
  assert (Ha : nth (i mod n) (data (value (alpha self))) NaN
               = Fin (nth (i mod n) av 0%R)).
  { rewrite Hd, (nth_indep _ NaN (Fin 0)) by (rewrite length_map; lia).
    apply map_nth. }
  rewrite Hnth, Ha by exact Hi.
  split; [|split].
  - intros xr v u Hxi Hbin Hprod Hsum. rewrite Hxi.
    apply (snake_elem_bounds_pos _ _ v u); trivial.
    rewrite Forall_forall in Hpos. apply Hpos. now apply nth_In.
  - intros xr s Hxi Hprod. rewrite Hxi. now apply (snake_elem_overflow _ _ s).
  - intros Hnf. apply snake_elem_nan. now left.
Qed.

Lemma forward_bounds_witness :
  exists (y : tensor) (yr : R),
    fst (forward (mkTensor [2%nat; 1%nat] [Fin 0; Inf false])
           (mkSnake (PyInt 1) (new_Parameter (mkTensor [1%nat] [Fin 1])))) = Ok y /\
    shape y = [2%nat; 1%nat] /\
    nth 0 (data y) NaN = Fin yr /\ (0 <= yr <= 1)%R /\
    nth 1 (data y) NaN = NaN.
Proof.
  destruct (@forward_bounds
              (mkSnake (PyInt 1) (new_Parameter (mkTensor [1%nat] [Fin 1])))
              (mkTensor [2%nat; 1%nat] [Fin 0; Inf false])
              [2%nat] 1 [1%R]
              eq_refl eq_refl eq_refl
              (Forall_cons 1%R Rlt_0_1 (Forall_nil _))
              eq_refl eq_refl)
    as [y [Hy [Hsh [_ Hall]]]].
  destruct (Hall 0%nat (Nat.lt_0_succ 1)) as [Hb _].
  destruct (Hall 1%nat (Nat.lt_succ_diag_r 1)) as [_ [_ Hnf]].
  destruct (Hb 0%R 0%R 1%R) as [yr [Hyr Hr]].
  - reflexivity.
  - exact binary32_0.
  - cbn [nth Nat.modulo Nat.divmod fst snd Nat.sub fmul].
    destruct (Req_dec_T 0 1) as [E | _]; [lra|].
    destruct (Req_dec_T 1 1) as [_ | E]; [reflexivity | contradiction].
  - cbn [nth Nat.modulo Nat.divmod fst snd Nat.sub fdiv fadd].
    destruct (Req_dec_T 1 0) as [E | _]; [lra|].
    replace (1 / 1)%R with 1%R by lra.
    rewrite binary32_1. cbn [fadd]. rewrite Rplus_0_l. exact binary32_1.
  - exists y, yr. repeat split; trivial; try apply Hr.
    apply Hnf. intros r. discriminate.
Defined.

(** C9 as stated fails: with [a = [2]], strictly positive, and
    [x = [2^127]] the output is NaN, which lies between nothing. *)
Lemma forward_bounds_counterexample :
  exists self : Snake,
    init (fun _ => Fin 10) (PyInt 1) (Some (Fin 2)) true = Ok self /\
    binary32 2 /\ binary32 (2 ^ 127) /\
    fst (forward (mkTensor [1%nat] [Fin (2 ^ 127)]) self)
    = Ok (mkTensor [1%nat] [NaN]).
Proof.
  exists (mkSnake (PyInt 1)
            (mkParameter (mkTensor [1%nat] [Fin 2]) true
               [("requiresGrad"%string, true)])).
  split; [now rewrite init_constant by lia|].
  split; [|split].
  - replace 2%R with (2 ^ 1)%R by (simpl; lra). apply binary32_pow2. lia.
  - apply binary32_pow2. lia.
  - rewrite (@forward_trailing _ (mkTensor [1%nat] [Fin (2 ^ 127)]) [] 1);
      [ | split; reflexivity | reflexivity | reflexivity ].
    cbn [fst alpha value data numel fold_right repeat concat app map2].
    rewrite (@snake_elem_overflow (Fin (2 ^ 127)) (Fin 2) false); [reflexivity|].
    apply fmul_overflow.
    + assert (H : (1 < 2 ^ 127)%R) by (apply Rlt_pow_R1; [lra | lia]). lra.
    + lra.
    + change 128%Z with (Z.of_nat 128). rewrite bpow_nat.
      change 128%nat with (127 + 1)%nat. rewrite pow_add. simpl. lra.
Qed.

(** C5, as it holds.  When an entry of the parameter vector is exactly 0
    and the input holds at least one element and broadcasts against the
    parameter, [forward] raises nothing: it returns a tensor of the
    broadcast shape, with as many elements as that shape says and at
    least one, in which every element computed from a zero entry of the
    parameter is NaN, and there is one. *)
Theorem forward_zero_parameter (self : Snake) (x : tensor) (n : nat) (so : list nat) :
  vector n (alpha self) ->
  wf x ->
  data x <> [] ->
  In (Fin 0) (data (value (alpha self))) ->
  broadcast_shapes (shape x) (shape (value (alpha self))) = Some so ->
  exists y : tensor,
    fst (forward x self) = Ok y /\
    shape y = so /\
    length (data y) = numel so /\
    data y <> [] /\
    (forall i, (i < length (data y))%nat ->
       nth (i mod n) (data (value (alpha self))) NaN = Fin 0 ->
       nth i (data y) (Fin 0) = NaN) /\
    In NaN (data y).
Proof.
  intros [Hs Hl] Hx Hne Hz Hb.
  assert (Hwa : wf (value (alpha self))).
  { unfold wf. rewrite Hs, Hl. simpl. lia. }
  rewrite (@forward_broadcast self x Hx Hwa so Hb). cbn [fst].
  destruct (broadcast_shapes_some _ _ Hb) as [Hlen [Ex [Ea _]]].
  set (X := expand (pad (length so) (shape x)) so (data x)).
  set (A := expand (pad (length so) (shape (value (alpha self)))) so
              (data (value (alpha self)))).
  assert (HX : length X = numel so).
  { apply expand_length; trivial. rewrite numel_pad. exact Hx. }
  assert (HA : length A = numel so).
  { apply expand_length; trivial. rewrite numel_pad. exact Hwa. }
  assert (Hso : numel so <> 0%nat).
  { apply (broadcast_numel _ _ _ Hb).
    - unfold wf in Hx. rewrite <- Hx. intros H0.
      apply length_zero_iff_nil in H0. contradiction.
    - unfold wf in Hwa. rewrite <- Hwa. intros H0.
      apply length_zero_iff_nil in H0. rewrite H0 in Hz. contradiction. }
  assert (Hlen' : length (map2 snake_elem X A) = numel so).
  { rewrite map2_length. lia. }
  eexists. split; [reflexivity|]. cbn [shape data].
  split; [reflexivity|]. split; [exact Hlen'|]. split; [|split].
  - intros H0. rewrite H0 in Hlen'. simpl in Hlen'. lia.
  - intros i Hi Hzero.
    rewrite Hlen' in Hi.
    rewrite (nth_map2 snake_elem X A (Fin 0) NaN (Fin 0)) by lia.
    assert (Hnth : nth i A NaN = nth (i mod n) (data (value (alpha self))) NaN).
    { unfold A. rewrite Hs. rewrite Hs in Hb.
      now apply expand_vector_nth with (sx := shape x). }
    rewrite Hnth, Hzero. apply snake_elem_zero.
  - apply map2_In_right with (b := Fin 0).
    + lia.
    + apply expand_In; trivial. rewrite numel_pad. exact Hwa.
    + apply snake_elem_zero.
Qed.

Lemma forward_zero_parameter_witness :
  exists y : tensor,
    fst (forward (mkTensor [2%nat] [Fin 1; Fin 2])
           (mkSnake (PyInt 2) (new_Parameter (mkTensor [2%nat] [Fin 0; Fin 1]))))
      = Ok y /\
    shape y = [2%nat] /\
    length (data y) = numel [2%nat] /\
    data y <> [] /\
    (forall i, (i < length (data y))%nat ->
       nth (i mod 2) [Fin 0; Fin 1] NaN = Fin 0 -> nth i (data y) (Fin 0) = NaN) /\
    In NaN (data y).
Proof.
  apply (@forward_zero_parameter
           (mkSnake (PyInt 2) (new_Parameter (mkTensor [2%nat] [Fin 0; Fin 1])))
           (mkTensor [2%nat] [Fin 1; Fin 2]) 2 [2%nat]).
  - split; reflexivity.
  - reflexivity.
  - discriminate.
  - left. reflexivity.
  - reflexivity.
Defined.

(** C5 as stated fails: on an input without element the parameter
    [[0]] gives neither an error nor any NaN or infinite value; the
    output is empty. *)
Lemma forward_zero_parameter_counterexample :
  exists self : Snake,
    init (fun _ => Fin 10) (PyInt 1) (Some (Fin 0)) true = Ok self /\
    In (Fin 0) (data (value (alpha self))) /\
    fst (forward (mkTensor [0%nat] []) self) = Ok (mkTensor [0%nat] []).
Proof.
  set (self := mkSnake (PyInt 1)
                 (mkParameter (mkTensor [1%nat] [Fin 0]) true
                    [("requiresGrad"%string, true)])).
  exists self.
  split; [now rewrite init_constant by lia|].
  split; [left; reflexivity|].
  rewrite (@forward_broadcast self (mkTensor [0%nat] []) eq_refl eq_refl
             [0%nat] eq_refl).
  reflexivity.
Qed.

(** C6, as it holds.  For an input [x] of at least one dimension whose
    trailing dimension equals the length of the parameter vector, or any
    such input when the parameter has length 1, [forward] returns a
    tensor of the shape of [x]. *)
Theorem forward_shape (self : Snake) (x : tensor) (lead : list nat) (m n : nat) :
  vector n (alpha self) ->
  wf x ->
  shape x = lead ++ [m] ->
  m = n \/ n = 1%nat ->
  exists y : tensor, fst (forward x self) = Ok y /\ shape y = shape x.
Proof.
  intros [Hs Hl] Hx Hsx Hmn.
  assert (Hwa : wf (value (alpha self))).
  { unfold wf. rewrite Hs, Hl. simpl. lia. }
  assert (Hb : broadcast_shapes (shape x) (shape (value (alpha self)))
               = Some (shape x)).
  { rewrite Hs, Hsx. now apply broadcast_trailing. }
  rewrite (@forward_broadcast self x Hx Hwa (shape x) Hb). cbn [fst].
  eexists. split; reflexivity.
Qed.

Lemma forward_shape_witness :
  exists y : tensor,
    fst (forward (mkTensor [2%nat; 3%nat] (repeat (Fin 0) 6))
           (mkSnake (PyInt 1) (new_Parameter (mkTensor [1%nat] [Fin 2])))) = Ok y /\
    shape y = [2%nat; 3%nat].
Proof.
  apply (@forward_shape
           (mkSnake (PyInt 1) (new_Parameter (mkTensor [1%nat] [Fin 2])))
           (mkTensor [2%nat; 3%nat] (repeat (Fin 0) 6)) [2%nat] 3 1).
  - split; reflexivity.
  - reflexivity.
  - reflexivity.
  - right. reflexivity.
Defined.

(** C6 as stated fails: an input of shape [[2; 1]] is
    broadcast-compatible with a parameter of length 3, and the output has
    shape [[2; 3]]. *)
Lemma forward_shape_counterexample :
  exists (self : Snake) (y : tensor),
    init (fun _ => Fin 10) (PyInt 3) (Some (Fin 1)) true = Ok self /\
    broadcast_shapes [2%nat; 1%nat] (shape (value (alpha self))) <> None /\
    fst (forward (mkTensor [2%nat; 1%nat] [Fin 0; Fin 0]) self) = Ok y /\
    shape y = [2%nat; 3%nat] /\
    shape y <> [2%nat; 1%nat].
Proof.
  set (self := mkSnake (PyInt 3)
                 (mkParameter (mkTensor [3%nat] (repeat (Fin 1) 3)) true
                    [("requiresGrad"%string, true)])).
  set (x := mkTensor [2%nat; 1%nat] [Fin 0; Fin 0]).
  exists self. eexists.
  split; [now rewrite init_constant by lia|].
  split; [discriminate|].
  split.
  - rewrite (@forward_broadcast self x eq_refl eq_refl [2%nat; 3%nat] eq_refl).
    reflexivity.
  - split; [reflexivity | discriminate].
Qed.

(** C7. [forward] leaves the instance as it found it (the fields
    [alpha] and [in_features] with it), its result depends on the
    instance through the value of [alpha] only, and a second call on the
    same input returns the result of the first. *)
Theorem forward_pure (self self' : Snake) (x : tensor) :
  value (alpha self') = value (alpha self) ->
  snd (forward x self) = self /\
  fst (forward x self') = fst (forward x self) /\
  fst (forward x (snd (forward x self))) = fst (forward x self).
Proof.
  intros Ha.
  assert (Hframe : forall s, snd (forward x s) = s).
  { intros s. unfold forward, bindM, self_alpha, ret.
    destruct (mul x (value (alpha s))) as [xa | e]; [|reflexivity].
    destruct (mul (rdiv_scalar (Fin 1) (value (alpha s))) (pow (sin xa) 2))
      as [t | e]; reflexivity. }
  split; [apply Hframe|]. split.
  - unfold forward, bindM, self_alpha, ret. rewrite Ha.
    destruct (mul x (value (alpha self))) as [xa | e]; [|reflexivity].
    destruct (mul (rdiv_scalar (Fin 1) (value (alpha self))) (pow (sin xa) 2))
      as [t | e]; reflexivity.
  - now rewrite Hframe.
Qed.

Lemma forward_pure_witness :
  snd (forward (mkTensor [1%nat] [Fin 3])
         (mkSnake (PyInt 1) (new_Parameter (mkTensor [1%nat] [Fin 2]))))
    = mkSnake (PyInt 1) (new_Parameter (mkTensor [1%nat] [Fin 2])) /\
  fst (forward (mkTensor [1%nat] [Fin 3])
         (mkSnake (PySeq [1%Z])
            (setattr (new_Parameter (mkTensor [1%nat] [Fin 2]))
               "requiresGrad"%string false)))
    = fst (forward (mkTensor [1%nat] [Fin 3])
             (mkSnake (PyInt 1) (new_Parameter (mkTensor [1%nat] [Fin 2])))) /\
  fst (forward (mkTensor [1%nat] [Fin 3])
         (snd (forward (mkTensor [1%nat] [Fin 3])
                 (mkSnake (PyInt 1) (new_Parameter (mkTensor [1%nat] [Fin 2]))))))
    = fst (forward (mkTensor [1%nat] [Fin 3])
             (mkSnake (PyInt 1) (new_Parameter (mkTensor [1%nat] [Fin 2])))).
Proof.
  apply (@forward_pure
           (mkSnake (PyInt 1) (new_Parameter (mkTensor [1%nat] [Fin 2])))
           (mkSnake (PySeq [1%Z])
              (setattr (new_Parameter (mkTensor [1%nat] [Fin 2]))
                 "requiresGrad"%string false))
           (mkTensor [1%nat] [Fin 3])).
  reflexivity.
Defined.

(** ** Constructor *)



(** C3 fails on the code.  Without [alpha] and with an int for
    [in_features], construction raises [TypeError]: the sampler is handed
    the int where it takes a sequence.  No instance is returned. *)
Theorem init_random_int_raises (rng : nat -> fp) (n : Z) (tr : bool) :
  init rng (PyInt n) None tr = Raise TypeError.
Proof. reflexivity. Qed.

(** C2 fails on the code.  Constructed with [alpha_trainable = false], the
    parameter still requires gradient: the constructor wrote the flag
    under the name [requiresGrad], which the engine does not read. *)
Theorem init_frozen_requires_grad (rng : nat -> fp) :
  exists self : Snake,
    init rng (PyInt 4) (Some (Fin 1)) false = Ok self /\
    requires_grad (alpha self) = true /\
    getattr (alpha self) "requires_grad"%string = Some true /\
    getattr (alpha self) "requiresGrad"%string = Some false.
Proof.
  rewrite init_constant by lia.
  eexists. split; [reflexivity|]. repeat split.
Qed.

(** C8, as it holds.  With an [alpha], construction with [in_features = 0]
    completes and returns an instance whose parameter is empty, and
    construction with a negative [in_features] raises: the engine refuses
    the negative dimension. *)
Theorem init_non_positive (rng : nat -> fp) (c : fp) (tr : bool) :
  (exists self : Snake,
     init rng (PyInt 0) (Some c) tr = Ok self /\
     shape (value (alpha self)) = [0%nat] /\
     data (value (alpha self)) = []) /\
  (forall n : Z, (n < 0)%Z -> init rng (PyInt n) (Some c) tr = Raise RuntimeError).
Proof.
  split.
  - rewrite init_constant by lia.
    eexists. split; [reflexivity|]. split; reflexivity.
  - intros n Hn. now apply init_negative.
Qed.

Lemma init_non_positive_witness :
  init (fun _ => Fin 10) (PyInt (-2)) (Some (Fin 1)) true = Raise RuntimeError.
Proof.
  apply (proj2 (@init_non_positive (fun _ => Fin 10) (Fin 1) true) (-2)%Z).
  reflexivity.
Defined.

(** C8 as stated fails: construction with [in_features = -1] raises. *)
Lemma init_non_positive_counterexample :
  ~ exists self : Snake,
      init (fun _ => Fin 10) (PyInt (-1)) (Some (Fin 1)) true = Ok self.
Proof.
  intros [self H]. rewrite init_negative in H by lia. discriminate.
Qed.

(** * Further properties of [forward] *)

(** X2. For a parameter vector with strictly negative entries and an
    input of binary32 numbers of shape [lead ++ [n]]: at every element
    where the product [x * a] and the sum [x + 1/a] are finite in
    binary32, the output [y] is finite and lies between that sum and
    [x]: the periodic term lowers the input, by at most [1/|a|] as
    binary32 computes it. *)
Theorem forward_bounds_negative (self : Snake) (x : tensor) (lead : list nat)
    (n : nat) (av xv : list R) :
  shape (value (alpha self)) = [n] ->
  data (value (alpha self)) = map Fin av ->
  length av = n ->
  Forall (fun a => (a < 0)%R) av ->
  shape x = lead ++ [n] ->
  data x = map Fin xv ->
  length xv = (numel lead * n)%nat ->
  Forall binary32 xv ->
  exists y : tensor,
    fst (forward x self) = Ok y /\
    shape y = shape x /\
    length (data y) = length xv /\
    forall (i : nat) (v u : R), (i < length xv)%nat ->
      fmul (Fin (nth i xv 0%R)) (Fin (nth (i mod n) av 0%R)) = Fin v ->
      fadd (Fin (nth i xv 0%R)) (fdiv (Fin 1) (Fin (nth (i mod n) av 0%R)))
      = Fin u ->
      exists yr : R,
        nth i (data y) NaN = Fin yr /\ (u <= yr <= nth i xv 0)%R.
Proof.
  intros Hs Hd Hn Hneg Hsx Hdx Hlx Hbin.
  destruct (@forward_trailing_fin self x lead n av xv Hs Hd Hn Hsx Hdx Hlx)
    as [y [Hy [Hsh [Hly Hnth]]]].
  exists y. rewrite Hy. cbn [fst].
  split; [reflexivity|]. split; [exact Hsh|]. split; [exact Hly|].
  intros i v u Hi Hprod Hsum.
  rewrite Hnth by exact Hi.
  assert (Hc : (i mod n < length av)%nat).
  { rewrite Hn. apply Nat.mod_upper_bound. intros ->. lia. }
  apply (snake_elem_bounds_neg _ _ v u); trivial.
  - rewrite Forall_forall in Hbin. apply Hbin. now apply nth_In.
  - rewrite Forall_forall in Hneg. apply Hneg. now apply nth_In.
Qed.

Lemma forward_bounds_negative_witness :
  exists (y : tensor) (yr : R),
    fst (forward (mkTensor [2%nat; 1%nat] [Fin 0; Fin 1])
           (mkSnake (PyInt 1) (new_Parameter (mkTensor [1%nat] [Fin (-1)])))) = Ok y /\
    shape y = [2%nat; 1%nat] /\
    nth 0 (data y) NaN = Fin yr /\ (-1 <= yr <= 0)%R.
Proof.
  assert (Hm1 : binary32 (-1)).
  { replace (-1)%R with (Ropp 1) by lra.
    unfold binary32, round32. rewrite rnd_opp, rnd_1, Rabs_Ropp, Rabs_R1.
    destruct (Rle_dec (bpow 128) 1) as [H | _]; [|reflexivity].
    pose proof bpow_128_gt_1. lra. }
  assert (Hneg : (-1 < 0)%R) by lra.
  destruct (@forward_bounds_negative
              (mkSnake (PyInt 1) (new_Parameter (mkTensor [1%nat] [Fin (-1)])))
              (mkTensor [2%nat; 1%nat] [Fin 0; Fin 1])
              [2%nat] 1 [(-1)%R] [0%R; 1%R]
              eq_refl eq_refl eq_refl
              (Forall_cons (-1)%R Hneg (Forall_nil _))
              eq_refl eq_refl eq_refl
              (Forall_cons 0%R binary32_0 (Forall_cons 1%R binary32_1 (Forall_nil _))))
    as [y [Hy [Hsh [_ Hall]]]].
  destruct (Hall 0%nat 0%R (-1)%R (Nat.lt_0_succ 1)) as [yr [Hyr Hr]].
  - cbn [nth Nat.modulo Nat.divmod fst snd Nat.sub fmul].
    destruct (Req_dec_T 0 1) as [E | _]; [lra|].
    destruct (Req_dec_T (-1) 1) as [E | _]; [lra|].
    rewrite Rmult_0_l. exact binary32_0.
  - cbn [nth Nat.modulo Nat.divmod fst snd Nat.sub fdiv fadd].
    destruct (Req_dec_T (-1) 0) as [E | _]; [lra|].
    replace (1 / -1)%R with (-1)%R by lra.
    rewrite Hm1. cbn [fadd]. rewrite Rplus_0_l. exact Hm1.
  - exists y, yr. repeat split; trivial; apply Hr.
Defined.

(** X3. For a parameter vector without zero entry and whose reciprocals
    are finite in binary32, the input of zeros is returned as it is: the
    activation passes through the origin. *)
Theorem forward_origin (self : Snake) (x : tensor) (lead : list nat) (n : nat)
    (av : list R) :
  shape (value (alpha self)) = [n] ->
  data (value (alpha self)) = map Fin av ->
  length av = n ->
  Forall (fun a => a <> 0%R /\ exists q : R, fdiv (Fin 1) (Fin a) = Fin q) av ->
  shape x = lead ++ [n] ->
  data x = repeat (Fin 0) (numel lead * n) ->
  fst (forward x self) = Ok x.
Proof.
  intros Hs Hd Hn Hnz Hsx Hdx.
  assert (Hv : vector n (alpha self)).
  { split; [exact Hs|]. now rewrite Hd, length_map. }
  assert (Hwx : wf x).
  { unfold wf. rewrite Hdx, Hsx, repeat_length, numel_app. simpl. lia. }
  rewrite (@forward_trailing self x lead n Hv Hwx Hsx). cbn [fst].
  rewrite Hd, concat_repeat_map, Hdx.
  assert (Hl : length (concat (repeat av (numel lead))) = (numel lead * n)%nat).
  { rewrite concat_repeat_length. lia. }
  rewrite <- Hl, map2_snake_origin by (now apply Forall_tile).
  rewrite Hl, <- Hdx, <- Hsx. now destruct x.
Qed.

Lemma forward_origin_witness :
  fst (forward (mkTensor [2%nat; 2%nat] (repeat (Fin 0) 4))
         (mkSnake (PyInt 2) (new_Parameter (mkTensor [2%nat] [Fin 1; Fin (-2)]))))
  = Ok (mkTensor [2%nat; 2%nat] (repeat (Fin 0) 4)).
Proof.
  apply (@forward_origin
           (mkSnake (PyInt 2) (new_Parameter (mkTensor [2%nat] [Fin 1; Fin (-2)])))
           (mkTensor [2%nat; 2%nat] (repeat (Fin 0) 4))
           [2%nat] 2 [1%R; (-2)%R]); try reflexivity.
  repeat constructor; try lra.
  - apply fdiv_small; [lra|].
    replace (1 / 1)%R with 1%R by lra. rewrite Rabs_R1. lra.
  - apply fdiv_small; [lra|].
    replace (1 / -2)%R with (- (1 / 2))%R by lra.
    rewrite Rabs_Ropp, Rabs_right; lra.
Defined.

(** X16. Where the reciprocal of every entry of the parameter overflows
    in binary32 (the entry is zero or smaller in magnitude than the least
    normal reciprocal allows), the input of zeros is not returned: every
    element of the output is NaN, the product of an infinite reciprocal
    and a zero periodic term. *)
Theorem forward_origin_overflow (self : Snake) (x : tensor) (lead : list nat)
    (n : nat) (av : list R) :
  shape (value (alpha self)) = [n] ->
  data (value (alpha self)) = map Fin av ->
  length av = n ->
  Forall (fun a => exists s : bool, fdiv (Fin 1) (Fin a) = Inf s) av ->
  shape x = lead ++ [n] ->
  data x = repeat (Fin 0) (numel lead * n) ->
  fst (forward x self) = Ok (mkTensor (shape x) (repeat NaN (numel lead * n))).
Proof.
  intros Hs Hd Hn Hov Hsx Hdx.
  assert (Hv : vector n (alpha self)).
  { split; [exact Hs|]. now rewrite Hd, length_map. }
  assert (Hwx : wf x).
  { unfold wf. rewrite Hdx, Hsx, repeat_length, numel_app. simpl. lia. }
  rewrite (@forward_trailing self x lead n Hv Hwx Hsx). cbn [fst].
  rewrite Hd, concat_repeat_map, Hdx.
  assert (Hl : length (concat (repeat av (numel lead))) = (numel lead * n)%nat).
  { rewrite concat_repeat_length. lia. }
  rewrite <- Hl, map2_snake_origin_overflow by (now apply Forall_tile).
  now rewrite Hl, Hsx.
Qed.

Lemma forward_origin_overflow_witness :
  fst (forward (mkTensor [2%nat; 1%nat] (repeat (Fin 0) 2))
         (mkSnake (PyInt 1)
            (new_Parameter (mkTensor [1%nat] [Fin (bpow (-149))]))))
  = Ok (mkTensor [2%nat; 1%nat] [NaN; NaN]).
Proof.
  apply (@forward_origin_overflow
           (mkSnake (PyInt 1)
              (new_Parameter (mkTensor [1%nat] [Fin (bpow (-149))])))
           (mkTensor [2%nat; 1%nat] (repeat (Fin 0) 2))
           [2%nat] 1 [bpow (-149)]); try reflexivity.
  repeat constructor. exists false.
  pose proof (bpow_pos (-149)) as Hp.
  cbn [fdiv]. destruct (Req_dec_T (bpow (-149)) 0) as [E | _]; [lra|].
  apply round32_overflow.
  assert (E : (bpow (-149) * bpow 149 = 1)%R).
  { rewrite <- bpow_add. reflexivity. }
  assert (E' : (1 / bpow (-149) = bpow 149)%R).
  { rewrite <- E. field. lra. }
  rewrite E'. apply bpow_le. lia.
Defined.

(** X17. For a parameter vector with entries at least 1 and an input of
    binary32 numbers at least [2^25] of shape [lead ++ [n]]: at every
    element where the product [x * a] is finite in binary32, the output
    is the input itself: the periodic term, at most 1, is below half the
    spacing of binary32 numbers at [x] and the final addition rounds it
    away. *)
Theorem forward_absorbs (self : Snake) (x : tensor) (lead : list nat)
    (n : nat) (av xv : list R) :
  shape (value (alpha self)) = [n] ->
  data (value (alpha self)) = map Fin av ->
  length av = n ->
  Forall (fun a => (1 <= a)%R) av ->
  shape x = lead ++ [n] ->
  data x = map Fin xv ->
  length xv = (numel lead * n)%nat ->
  Forall (fun v => binary32 v /\ (bpow 25 <= v)%R) xv ->
  exists y : tensor,
    fst (forward x self) = Ok y /\
    shape y = shape x /\
    length (data y) = length xv /\
    forall (i : nat) (v : R), (i < length xv)%nat ->
      fmul (Fin (nth i xv 0%R)) (Fin (nth (i mod n) av 0%R)) = Fin v ->
      nth i (data y) NaN = Fin (nth i xv 0%R).
Proof.
  intros Hs Hd Hn Hpos Hsx Hdx Hlx Hbig.
  destruct (@forward_trailing_fin self x lead n av xv Hs Hd Hn Hsx Hdx Hlx)
    as [y [Hy [Hsh [Hly Hnth]]]].
  exists y. rewrite Hy. cbn [fst].
  split; [reflexivity|]. split; [exact Hsh|]. split; [exact Hly|].
  intros i v Hi Hprod.
  rewrite Hnth by exact Hi.
  assert (Hc : (i mod n < length av)%nat).
  { rewrite Hn. apply Nat.mod_upper_bound. intros ->. lia. }
  rewrite Forall_forall in Hbig.
  destruct (Hbig (nth i xv 0%R) (nth_In _ _ Hi)) as [Hb Hge].
  apply (snake_elem_absorb _ _ v); trivial.
  rewrite Forall_forall in Hpos. apply Hpos. now apply nth_In.
Qed.

Lemma forward_absorbs_witness :
  exists y : tensor,
    fst (forward (mkTensor [1%nat; 1%nat] [Fin (bpow 25)])
           (mkSnake (PyInt 1) (new_Parameter (mkTensor [1%nat] [Fin 2])))) = Ok y /\
    shape y = [1%nat; 1%nat] /\
    nth 0 (data y) NaN = Fin (bpow 25).
Proof.
  assert (H2 : (1 <= 2)%R) by lra.
  assert (Hx : binary32 (bpow 25) /\ (bpow 25 <= bpow 25)%R).
  { split; [apply binary32_bpow; lia | lra]. }
  destruct (@forward_absorbs
              (mkSnake (PyInt 1) (new_Parameter (mkTensor [1%nat] [Fin 2])))
              (mkTensor [1%nat; 1%nat] [Fin (bpow 25)])
              [1%nat] 1 [2%R] [bpow 25]
              eq_refl eq_refl eq_refl
              (Forall_cons 2%R H2 (Forall_nil _))
              eq_refl eq_refl eq_refl
              (Forall_cons (bpow 25) Hx (Forall_nil _)))
    as [y [Hy [Hsh [_ Hall]]]].
  exists y. split; [exact Hy|]. split; [exact Hsh|].
  apply (Hall 0%nat (bpow 26) (Nat.lt_0_succ 0)).
  cbn [nth Nat.modulo Nat.divmod fst snd Nat.sub fmul].
  pose proof (bpow_lt 0 25 ltac:(lia)) as H1. change (bpow 0) with 1%R in H1.
  destruct (Req_dec_T (bpow 25) 1) as [E | _]; [lra|].
  destruct (Req_dec_T 2 1) as [E | _]; [lra|].
  assert (E : (bpow 25 * 2 = bpow 26)%R).
  { replace 26%Z with (25 + 1)%Z by lia. rewrite bpow_add.
    rewrite (bpow_IZR 1) by lia. reflexivity. }
  rewrite E. apply binary32_bpow. lia.
Defined.

(** ** Values that are not finite *)

(** X5. An element of the output is NaN as soon as the element of the
    input it is computed from is infinite or NaN, or the entry of the
    parameter for its channel is zero, infinite or NaN. *)
Theorem forward_nan (self : Snake) (x : tensor) (lead : list nat) (n : nat) :
  vector n (alpha self) ->
  wf x ->
  shape x = lead ++ [n] ->
  exists y : tensor,
    fst (forward x self) = Ok y /\
    shape y = shape x /\
    length (data y) = length (data x) /\
    forall i, (i < length (data x))%nat ->
      (forall r, nth i (data x) NaN <> Fin r) \/
      (forall r, nth (i mod n) (data (value (alpha self))) NaN <> Fin r) \/
      nth (i mod n) (data (value (alpha self))) NaN = Fin 0 ->
      nth i (data y) (Fin 0) = NaN.
Proof.
  intros Hv Hx Hsx.
  pose proof Hv as [Hs Hl].
  rewrite (@forward_trailing self x lead n Hv Hx Hsx). cbn [fst].
  set (tiled := concat (repeat (data (value (alpha self))) (numel lead))).
  assert (Hxl : length (data x) = (numel lead * n)%nat).
  { unfold wf in Hx. rewrite Hx, Hsx, numel_app. simpl. lia. }
  assert (Htl : length tiled = length (data x)).
  { unfold tiled. rewrite concat_repeat_length. lia. }
  eexists. split; [reflexivity|]. cbn [shape data].
  split; [now rewrite Hsx|]. split.
  - rewrite map2_length. lia.
  - intros i Hi Hbad.
    rewrite (nth_map2 snake_elem (data x) tiled NaN NaN (Fin 0)) by lia.
    assert (Ha : nth i tiled NaN = nth (i mod n) (data (value (alpha self))) NaN).
    { unfold tiled. rewrite <- Hl. apply nth_tile. lia. }
    rewrite Ha. now apply snake_elem_nan.
Qed.

Lemma forward_nan_witness :
  exists y : tensor,
    fst (forward (mkTensor [3%nat] [Fin 1; Inf false; Fin 2])
           (mkSnake (PyInt 3)
              (new_Parameter (mkTensor [3%nat] [Fin 1; Fin 1; Inf true])))) = Ok y /\
    shape y = [3%nat] /\
    length (data y) = 3%nat /\
    forall i, (i < 3)%nat ->
      (forall r, nth i [Fin 1; Inf false; Fin 2] NaN <> Fin r) \/
      (forall r, nth (i mod 3) [Fin 1; Fin 1; Inf true] NaN <> Fin r) \/
      nth (i mod 3) [Fin 1; Fin 1; Inf true] NaN = Fin 0 ->
      nth i (data y) (Fin 0) = NaN.
Proof.
  apply (@forward_nan
           (mkSnake (PyInt 3)
              (new_Parameter (mkTensor [3%nat] [Fin 1; Fin 1; Inf true])))
           (mkTensor [3%nat] [Fin 1; Inf false; Fin 2]) [] 3).
  - split; reflexivity.
  - reflexivity.
  - reflexivity.
Defined.

(** ** Which inputs broadcast *)

Lemma bdim_one_r (e : nat) : bdim e 1 = Some e.
Proof.
  unfold bdim.
  destruct (Nat.eqb_spec e 1) as [-> | _]; reflexivity.
Qed.

Lemma bdims_vector (lead : list nat) (m n : nat) :
  bdims (lead ++ [m]) (repeat 1%nat (length lead) ++ [n])
  = option_map (fun d => lead ++ [d]) (bdim m n).
Proof.
  induction lead as [|e lead IH]; simpl.
  - destruct (bdim m n); reflexivity.
  - rewrite IH, bdim_one_r. destruct (bdim m n); reflexivity.
Qed.

Lemma broadcast_vector (lead : list nat) (m n : nat) :
  broadcast_shapes (lead ++ [m]) [n] = option_map (fun d => lead ++ [d]) (bdim m n).
Proof.
  unfold broadcast_shapes.
  rewrite length_app. cbn [length].
  replace (Nat.max (length lead + 1) 1) with (length lead + 1)%nat by lia.
  rewrite pad_full by (rewrite length_app; simpl; lia).
  unfold pad. cbn [length].
  replace (length lead + 1 - 1)%nat with (length lead) by lia.
  apply bdims_vector.
Qed.

(** X6. Against a parameter vector of length [n], an input whose trailing
    dimension is [m] is accepted exactly when [m = n], [m = 1] or
    [n = 1]: the output then has the leading dimensions of the input and
    the trailing dimension [n] if [m = 1], [m] otherwise, and as many
    elements as its shape says.  Any other input raises [RuntimeError],
    and the instance is left as it was. *)
Theorem forward_accepts (self : Snake) (x : tensor) (lead : list nat) (m n : nat) :
  vector n (alpha self) ->
  wf x ->
  shape x = lead ++ [m] ->
  (m = n \/ m = 1%nat \/ n = 1%nat ->
   exists y : tensor,
     forward x self = (Ok y, self) /\
     shape y = lead ++ [if Nat.eqb m 1 then n else m] /\
     wf y) /\
  (m <> n -> m <> 1%nat -> n <> 1%nat ->
   forward x self = (Raise RuntimeError, self)).
Proof.
  intros [Hs Hl] Hx Hsx.
  assert (Hwa : wf (value (alpha self))).
  { unfold wf. rewrite Hs, Hl. simpl. lia. }
  pose proof (broadcast_vector lead m n) as Hb.
  rewrite <- Hsx, <- Hs in Hb.
  split.
  - intros Hok.
    assert (Hd : bdim m n = Some (if Nat.eqb m 1 then n else m)).
    { unfold bdim.
      destruct (Nat.eqb_spec m n) as [<- | Hmn].
      - destruct (Nat.eqb_spec m 1) as [-> | _]; reflexivity.
      - destruct (Nat.eqb_spec m 1) as [_ | Hm1]; [reflexivity|].
        destruct (Nat.eqb_spec n 1) as [_ | Hn1]; [reflexivity|].
        destruct Hok as [H | [H | H]]; contradiction. }
    rewrite Hd in Hb. cbn [option_map] in Hb.
    rewrite (@forward_broadcast self x Hx Hwa _ Hb).
    eexists. split; [reflexivity|]. split; [reflexivity|].
    destruct (broadcast_shapes_some _ _ Hb) as [_ [Ex [Ea _]]].
    unfold wf. cbn [data shape].
    rewrite map2_length, !expand_length; trivial.
    + lia.
    + rewrite numel_pad. exact Hwa.
    + rewrite numel_pad. exact Hx.
  - intros Hmn Hm1 Hn1.
    assert (Hd : bdim m n = None).
    { unfold bdim.
      destruct (Nat.eqb_spec m n); [contradiction|].
      destruct (Nat.eqb_spec m 1); [contradiction|].
      destruct (Nat.eqb_spec n 1); [contradiction|]. reflexivity. }
    rewrite Hd in Hb. cbn [option_map] in Hb.
    now apply forward_mismatch.
Qed.

Lemma forward_accepts_witness :
  forward (mkTensor [1%nat; 3%nat] [Fin 0; Fin 1; Fin 2])
    (mkSnake (PyInt 2) (new_Parameter (mkTensor [2%nat] [Fin 1; Fin 2])))
  = (Raise RuntimeError,
     mkSnake (PyInt 2) (new_Parameter (mkTensor [2%nat] [Fin 1; Fin 2]))).
Proof.
  apply (proj2 (@forward_accepts
                  (mkSnake (PyInt 2) (new_Parameter (mkTensor [2%nat] [Fin 1; Fin 2])))
                  (mkTensor [1%nat; 3%nat] [Fin 0; Fin 1; Fin 2]) [1%nat] 3 2
                  (conj eq_refl eq_refl) eq_refl eq_refl)); discriminate.
Defined.

(** ** Inputs that are themselves expanded *)

Lemma concat_map_flat_map (A B : Type) (g : A -> list B) (ls : list (list A)) :
  concat (map (flat_map g) ls) = flat_map g (concat ls).
Proof.
  induction ls as [|l ls IH]; simpl; [reflexivity|].
  now rewrite flat_map_app, IH.
Qed.

Lemma concat_repeat_singleton (A : Type) (v : A) (n : nat) :
  concat (repeat [v] n) = repeat v n.
Proof. induction n as [|n IH]; simpl; [reflexivity|]. now rewrite IH. Qed.

Lemma concat_repeat_repeat (A : Type) (v : A) (m k : nat) :
  concat (repeat (repeat v m) k) = repeat v (k * m).
Proof.
  induction k as [|k IH]; simpl; [reflexivity|].
  now rewrite IH, repeat_app.
Qed.

Lemma expand_one (A : Type) (n : nat) (v : A) : expand [1%nat] [n] [v] = repeat v n.
Proof.
  cbn [expand chunks numel fold_right firstn map concat app].
  destruct (Nat.eqb_spec 1 n) as [<- | _]; [reflexivity|].
  apply concat_repeat_singleton.
Qed.

(** A tensor whose trailing dimension is 1 seen at trailing dimension
    [n]: each element is repeated [n] times. *)
Lemma expand_column (A : Type) (lead : list nat) (n : nat) (l : list A) :
  length l = numel lead ->
  expand (lead ++ [1%nat]) (lead ++ [n]) l = flat_map (fun v => repeat v n) l.
Proof.
  revert l; induction lead as [|e lead IH]; intros l Hl.
  - destruct l as [|v [|w l]]; try discriminate.
    cbn [app flat_map]. rewrite expand_one. now rewrite app_nil_r.
  - cbn [app expand]. rewrite Nat.eqb_refl.
    assert (Hn : numel (lead ++ [1%nat]) = numel lead).
    { rewrite numel_app. simpl. lia. }
    rewrite Hn.
    assert (Hl' : length l = (e * numel lead)%nat) by exact Hl.
    rewrite (map_ext_in _ (flat_map (fun v => repeat v n))).
    + rewrite concat_map_flat_map, concat_chunks; trivial.
    + intros c Hc. apply IH.
      pose proof (chunks_row_length e (numel lead) l Hl') as Hr.
      rewrite Forall_forall in Hr. now apply Hr.
Qed.

Lemma map2_app (A B C : Type) (f : A -> B -> C) (l1 l2 : list A) (r1 r2 : list B) :
  length l1 = length r1 ->
  map2 f (l1 ++ l2) (r1 ++ r2) = map2 f l1 r1 ++ map2 f l2 r2.
Proof.
  revert r1; induction l1 as [|a l1 IH]; intros [|b r1] Hl; simpl in *;
    try discriminate; trivial.
  rewrite IH by lia. reflexivity.
Qed.

Lemma map2_repeat_l (A B C : Type) (f : A -> B -> C) (v : A) (r : list B) :
  map2 f (repeat v (length r)) r = map (f v) r.
Proof. induction r as [|b r IH]; simpl; [reflexivity|]. now rewrite IH. Qed.

Lemma map2_repeat_r (A B C : Type) (f : A -> B -> C) (l : list A) (b : B) :
  map2 f l (repeat b (length l)) = map (fun a => f a b) l.
Proof. induction l as [|a l IH]; simpl; [reflexivity|]. now rewrite IH. Qed.

Lemma map2_column (A B C : Type) (f : A -> B -> C) (xs : list A) (r : list B) :
  map2 f (flat_map (fun v => repeat v (length r)) xs) (concat (repeat r (length xs)))
  = flat_map (fun v => map (f v) r) xs.
Proof.
  induction xs as [|v xs IH]; simpl; [reflexivity|].
  rewrite map2_app by apply repeat_length.
  now rewrite map2_repeat_l, IH.
Qed.

(** X7. An input whose trailing dimension is 1 is expanded against the
    parameter vector: the output has the leading dimensions of the input
    and the length of the parameter as trailing dimension, and holds, for
    each element of the input in turn, its image under every entry of the
    parameter. *)
Theorem forward_column (self : Snake) (x : tensor) (lead : list nat) (n : nat) :
  vector n (alpha self) ->
  wf x ->
  shape x = lead ++ [1%nat] ->
  fst (forward x self) =
  Ok (mkTensor (lead ++ [n])
        (flat_map (fun xv => map (snake_elem xv) (data (value (alpha self))))
           (data x))).
Proof.
  intros [Hs Hl] Hx Hsx.
  assert (Hwa : wf (value (alpha self))).
  { unfold wf. rewrite Hs, Hl. simpl. lia. }
  assert (Hxl : length (data x) = numel lead).
  { unfold wf in Hx. rewrite Hx, Hsx, numel_app. simpl. lia. }
  assert (Hb : broadcast_shapes (shape x) (shape (value (alpha self)))
               = Some (lead ++ [n])).
  { rewrite Hsx, Hs, broadcast_vector. unfold bdim.
    destruct (Nat.eqb_spec 1 n) as [<- | _]; reflexivity. }
  rewrite (@forward_broadcast self x Hx Hwa _ Hb). cbn [fst].
  rewrite Hsx, Hs.
  rewrite pad_full by (rewrite !length_app; simpl; lia).
  rewrite expand_column by exact Hxl.
  unfold pad. rewrite length_app. cbn [length].
  replace (length lead + 1 - 1)%nat with (length lead) by lia.
  rewrite expand_tile by exact Hl.
  pose proof (map2_column snake_elem (data x) (data (value (alpha self)))) as Hm.
  rewrite Hl, Hxl in Hm. now rewrite Hm.
Qed.

Lemma forward_column_witness :
  fst (forward (mkTensor [2%nat; 1%nat] [Fin 0; Fin 3])
         (mkSnake (PyInt 2) (new_Parameter (mkTensor [2%nat] [Fin 1; Fin 2]))))
  = Ok (mkTensor [2%nat; 2%nat]
          (flat_map (fun xv => map (snake_elem xv) [Fin 1; Fin 2]) [Fin 0; Fin 3])).
Proof.
  apply (@forward_column
           (mkSnake (PyInt 2) (new_Parameter (mkTensor [2%nat] [Fin 1; Fin 2])))
           (mkTensor [2%nat; 1%nat] [Fin 0; Fin 3]) [2%nat] 2).
  - split; reflexivity.
  - reflexivity.
  - reflexivity.
Defined.

(** X8. A tensor of no dimension (one number) is accepted: the output is
    a vector of the length of the parameter, its image under each entry
    of the parameter. *)
Theorem forward_scalar_input (self : Snake) (v : fp) (n : nat) :
  vector n (alpha self) ->
  fst (forward (mkTensor [] [v]) self) =
  Ok (mkTensor [n] (map (snake_elem v) (data (value (alpha self))))).
Proof.
  intros [Hs Hl].
  assert (Hwa : wf (value (alpha self))).
  { unfold wf. rewrite Hs, Hl. simpl. lia. }
  assert (Hx : wf (mkTensor [] [v])) by reflexivity.
  assert (Hb : broadcast_shapes (shape (mkTensor [] [v])) (shape (value (alpha self)))
               = Some [n]).
  { rewrite Hs. unfold broadcast_shapes, pad. simpl. unfold bdim.
    destruct (Nat.eqb_spec 1 n) as [<- | _]; reflexivity. }
  rewrite (@forward_broadcast self _ Hx Hwa _ Hb). cbn [fst shape data].
  rewrite Hs. unfold pad. cbn [length Nat.sub repeat app].
  rewrite expand_one.
  rewrite expand_id by (simpl; lia).
  pose proof (map2_repeat_l snake_elem v (data (value (alpha self)))) as Hm.
  rewrite Hl in Hm. now rewrite Hm.
Qed.

Lemma forward_scalar_input_witness :
  fst (forward (mkTensor [] [Fin 3])
         (mkSnake (PyInt 2) (new_Parameter (mkTensor [2%nat] [Fin 1; Fin 2]))))
  = Ok (mkTensor [2%nat] (map (snake_elem (Fin 3)) [Fin 1; Fin 2])).
Proof.
  apply (@forward_scalar_input
           (mkSnake (PyInt 2) (new_Parameter (mkTensor [2%nat] [Fin 1; Fin 2])))
           (Fin 3) 2).
  split; reflexivity.
Defined.

(** X9. With a parameter of one entry [a], any input of at least one
    dimension is accepted and every element is mapped with [a]; the
    output has the shape of the input. *)
Theorem forward_single_parameter (self : Snake) (x : tensor) (lead : list nat)
    (m : nat) (a : fp) :
  shape (value (alpha self)) = [1%nat] ->
  data (value (alpha self)) = [a] ->
  wf x ->
  shape x = lead ++ [m] ->
  fst (forward x self) =
  Ok (mkTensor (shape x) (map (fun xv => snake_elem xv a) (data x))).
Proof.
  intros Hs Hd Hx Hsx.
  assert (Hwa : wf (value (alpha self))).
  { unfold wf. now rewrite Hs, Hd. }
  assert (Hxl : length (data x) = (numel lead * m)%nat).
  { unfold wf in Hx. rewrite Hx, Hsx, numel_app. simpl. lia. }
  assert (Hb : broadcast_shapes (shape x) (shape (value (alpha self)))
               = Some (shape x)).
  { rewrite Hs, Hsx. apply broadcast_trailing. now right. }
  rewrite (@forward_broadcast self x Hx Hwa _ Hb). cbn [fst].
  rewrite pad_full by lia.
  rewrite expand_id by exact Hx.
  rewrite Hs, Hd, Hsx.
  unfold pad. rewrite length_app. cbn [length].
  replace (length lead + 1 - 1)%nat with (length lead) by lia.
  rewrite expand_leading by reflexivity.
  rewrite expand_one, concat_repeat_repeat.
  pose proof (map2_repeat_r snake_elem (data x) a) as Hm.
  rewrite Hxl in Hm. now rewrite Hm.
Qed.

Lemma forward_single_parameter_witness :
  fst (forward (mkTensor [2%nat; 2%nat] [Fin 0; Fin 1; Fin 2; Fin 3])
         (mkSnake (PyInt 1) (new_Parameter (mkTensor [1%nat] [Fin 2]))))
  = Ok (mkTensor [2%nat; 2%nat]
          (map (fun xv => snake_elem xv (Fin 2)) [Fin 0; Fin 1; Fin 2; Fin 3])).
Proof.
  apply (@forward_single_parameter
           (mkSnake (PyInt 1) (new_Parameter (mkTensor [1%nat] [Fin 2])))
           (mkTensor [2%nat; 2%nat] [Fin 0; Fin 1; Fin 2; Fin 3])
           [2%nat] 2 (Fin 2)); reflexivity.
Defined.

(** * Further properties of the constructor *)

Lemma check_dims_ok (ds : list Z) :
  Forall (fun d => (0 <= d)%Z) ds -> check_dims ds = Ok (map Z.to_nat ds).
Proof.
  intros H. unfold check_dims.
  replace (forallb (fun d => (0 <=? d)%Z) ds) with true; [reflexivity|].
  symmetry. apply forallb_forall. rewrite Forall_forall in H.
  intros d Hd. apply Z.leb_le. now apply H.
Qed.







Lemma map_const_repeat (A B : Type) (f : A -> B) (b : B) (l : list A) :
  (forall a, f a = b) -> map f l = repeat b (length l).
Proof.
  intros H. induction l as [|a l IH]; simpl; [reflexivity|].
  now rewrite H, IH.
Qed.

(** X12. [alpha = 0.0] counts as given: the constructor takes the
    constant branch and builds a parameter of zeros, and [forward] then
    returns NaN at every position, whatever the input. *)
Theorem init_zero_then_forward (rng : nat -> fp) (n : Z) (tr : bool)
    (x : tensor) (lead : list nat) :
  (0 <= n)%Z ->
  wf x ->
  shape x = lead ++ [Z.to_nat n] ->
  exists self : Snake,
    init rng (PyInt n) (Some (Fin 0)) tr = Ok self /\
    data (value (alpha self)) = repeat (Fin 0) (Z.to_nat n) /\
    fst (forward x self) = Ok (mkTensor (shape x) (repeat NaN (length (data x)))).
Proof.
  intros Hn Hx Hsx.
  rewrite init_constant by lia.
  eexists. split; [reflexivity|]. split; [reflexivity|].
  assert (Hxl : length (data x) = (numel lead * Z.to_nat n)%nat).
  { unfold wf in Hx. rewrite Hx, Hsx, numel_app. simpl. lia. }
  rewrite (@forward_trailing _ x lead (Z.to_nat n)); trivial.
  - cbn [fst alpha value data]. rewrite concat_repeat_repeat.
    pose proof (map2_repeat_r snake_elem (data x) (Fin 0)) as Hm.
    rewrite Hxl in Hm. rewrite Hm, Hsx.
    now rewrite (map_const_repeat _ (data x) snake_elem_zero).
  - split; [reflexivity|]. apply repeat_length.
Qed.

Lemma init_zero_then_forward_witness :
  exists self : Snake,
    init (fun _ => Fin 10) (PyInt 2) (Some (Fin 0)) true = Ok self /\
    data (value (alpha self)) = repeat (Fin 0) 2 /\
    fst (forward (mkTensor [1%nat; 2%nat] [Fin 4; Inf true]) self)
    = Ok (mkTensor [1%nat; 2%nat] (repeat NaN 2)).
Proof.
  apply (@init_zero_then_forward (fun _ => Fin 10) 2 true
           (mkTensor [1%nat; 2%nat] [Fin 4; Inf true]) [1%nat]).
  - discriminate.
  - reflexivity.
  - reflexivity.
Defined.

(** X13. Without [alpha] and with a one-element sequence [[n]] for
    [in_features], construction succeeds, but the parameter is not a
    vector: it has shape [[n; 1]] (the sampler appends the shape of its
    rate), its entries the [n] draws.  [forward] on an input of shape
    [[n]] then returns a tensor of shape [[n; n]]. *)
Theorem init_random_then_forward (rng : nat -> fp) (n : nat) (tr : bool) (x : tensor) :
  wf x ->
  shape x = [n] ->
  exists (self : Snake) (y : tensor),
    init rng (PySeq [Z.of_nat n]) None tr = Ok self /\
    shape (value (alpha self)) = [n; 1%nat] /\
    data (value (alpha self)) = map rng (seq 0 n) /\
    fst (forward x self) = Ok y /\
    shape y = [n; n] /\
    wf y.
Proof.
  intros Hx Hsx.
  unfold init, Exponential_sample. rewrite check_dims_ok by (repeat constructor; lia).
  cbn [bind map app shape]. rewrite Nat2Z.id.
  assert (Hnum : numel [n; 1%nat] = n) by (simpl; lia).
  rewrite Hnum.
  set (self := mkSnake (PySeq [Z.of_nat n])
                 (setattr (new_Parameter (mkTensor [n; 1%nat] (map rng (seq 0 n))))
                    "requiresGrad"%string tr)).
  assert (Hwa : wf (value (alpha self))).
  { unfold wf. cbn. rewrite length_map, length_seq. lia. }
  assert (Hb : broadcast_shapes (shape x) (shape (value (alpha self))) = Some [n; n]).
  { rewrite Hsx. cbn. unfold bdim.
    destruct (Nat.eqb_spec 1 n) as [<- | H1]; [reflexivity|].
    destruct (Nat.eqb_spec n 1) as [-> | H2]; [contradiction|]. reflexivity. }
  exists self. eexists. split; [reflexivity|].
  split; [reflexivity|]. split; [reflexivity|].
  rewrite (@forward_broadcast self x Hx Hwa _ Hb). cbn [fst].
  split; [reflexivity|]. split; [reflexivity|].
  destruct (broadcast_shapes_some _ _ Hb) as [_ [Ex [Ea _]]].
  unfold wf. cbn [data shape].
  rewrite map2_length, !expand_length; trivial;
    try (rewrite numel_pad; first [exact Hx | exact Hwa]).
  lia.
Qed.

Lemma init_random_then_forward_witness :
  exists (self : Snake) (y : tensor),
    init (fun _ => Fin 10) (PySeq [Z.of_nat 2]) None true = Ok self /\
    shape (value (alpha self)) = [2%nat; 1%nat] /\
    data (value (alpha self)) = map (fun _ => Fin 10) (seq 0 2) /\
    fst (forward (mkTensor [2%nat] [Fin 0; Fin 1]) self) = Ok y /\
    shape y = [2%nat; 2%nat] /\
    wf y.
Proof.
  apply (@init_random_then_forward (fun _ => Fin 10) 2 true
           (mkTensor [2%nat] [Fin 0; Fin 1])); reflexivity.
Defined.

(** X14. [alpha_trainable] changes nothing but an attribute that is not
    read: construction fails or succeeds alike for both values, and on
    success the instance has the same [in_features] and the same
    parameter value, its parameter requires gradient, and the argument
    is found under the name [requiresGrad]. *)
Theorem init_trainable_ignored (rng : nat -> fp) (size : pysize) (a : option fp)
    (tr : bool) :
  match init rng size a tr with
  | Ok self =>
      requires_grad (alpha self) = true /\
      getattr (alpha self) "requiresGrad"%string = Some tr /\
      exists self' : Snake,
        init rng size a (negb tr) = Ok self' /\
        in_features self' = in_features self /\
        value (alpha self') = value (alpha self) /\
        requires_grad (alpha self') = true
  | Raise e => init rng size a (negb tr) = Raise e
  end.
Proof.
  unfold init.
  destruct a as [c|].
  - destruct (ones size) as [o | e]; cbn [bind]; [|reflexivity].
    repeat split. eexists. repeat split.
  - destruct (Exponential_sample rng (mkTensor [1%nat] [Fin (1 / 10)]) size)
      as [s | e]; cbn [bind]; [|reflexivity].
    repeat split. eexists. repeat split.
Qed.
